(** * React Luau Props Helper: the completion provider of [src/extension.ts]

    A shallow embedding of the text-based detection pipeline
    ([provideCompletionItems] and its four private helpers) together with
    the part of the JavaScript semantics the code relies on:

    - strings are sequences of UTF-16 code units;
    - the call pattern is a regular expression run by a backtracking
      matcher with ordered alternation, greedy quantifiers, capture groups
      and a back-reference, driven by [exec] through [lastIndex];
    - property maps are plain objects, so a lookup that misses the own
      keys continues in [Object.prototype];
    - [a || b] and [!a] go by truthiness ([undefined] and the empty
      string are falsy, every array and function is truthy). *)

From Stdlib Require Import String Ascii.
From stdpp Require Import gmap list fin_maps sorting.

Local Open Scope N_scope.

(** ** Strings *)

(** A JavaScript string is a list of UTF-16 code units. *)
Abbreviation jstring := (list N).

Definition str (s : string) : jstring :=
  map N_of_ascii (list_ascii_of_string s).

Arguments str : simpl never.

Definition ch_dquote : N := 34.
Definition ch_squote : N := 39.
Definition ch_lparen : N := 40.
Definition ch_comma : N := 44.
Definition ch_lbrace : N := 123.
Definition ch_rbrace : N := 125.

(** [\s]: the WhiteSpace and LineTerminator code points of ECMAScript. *)
Definition is_space (c : N) : bool :=
  ((9 <=? c) && (c <=? 13)) || (c =? 32) || (c =? 160) || (c =? 5760)
  || ((8192 <=? c) && (c <=? 8202)) || (c =? 8232) || (c =? 8233)
  || (c =? 8239) || (c =? 8287) || (c =? 12288) || (c =? 65279).

(** [[A-Za-z0-9_]] *)
Definition is_word (c : N) : bool :=
  ((65 <=? c) && (c <=? 90)) || ((97 <=? c) && (c <=? 122))
  || ((48 <=? c) && (c <=? 57)) || (c =? 95).

(** The class of the two quote characters, double and single. *)
Definition is_quote (c : N) : bool := (c =? ch_dquote) || (c =? ch_squote).

Fixpoint starts_with (w s : jstring) : bool :=
  match w, s with
  | [], _ => true
  | a :: w', b :: s' => (a =? b) && starts_with w' s'
  | _ :: _, [] => false
  end.

(** ** Regular expressions *)

(** The fragment of the pattern language the call pattern is written in.
    Quantifiers only ever apply to a character class there. *)
Inductive regex : Type :=
| RLit (w : jstring)              (* a run of literal characters *)
| RClass (p : N -> bool)          (* one character of a class *)
| RSeq (r1 r2 : regex)
| RAlt (r1 r2 : regex)            (* ordered: r1 is tried first *)
| RStar (p : N -> bool)           (* greedy class* *)
| RPlus (p : N -> bool)           (* greedy class+ *)
| RGroup (n : nat) (r : regex)    (* capture group number n *)
| RBackref (n : nat).

(** Matcher state: the input that is left and the captures so far. *)
Record mstate : Type := MState {
  rest : jstring;
  caps : gmap nat jstring
}.

Definition cont : Type := mstate -> option mstate.

(** Greedy repetition with backtracking: take one more character when
    possible and fall back to stopping here when what follows fails. *)
Fixpoint star_greedy (p : N -> bool) (s : jstring) (c : gmap nat jstring)
    (k : cont) : option mstate :=
  match s with
  | ch :: s' =>
      if p ch then
        match star_greedy p s' c k with
        | Some r => Some r
        | None => k (MState s c)
        end
      else k (MState s c)
  | [] => k (MState [] c)
  end.

(** The backtracking matcher, in continuation-passing style as in the
    language definition: [k] is what has to match after [r]. *)
Fixpoint rmatch (r : regex) (st : mstate) (k : cont) : option mstate :=
  match r with
  | RLit w =>
      if starts_with w (rest st)
      then k (MState (drop (length w) (rest st)) (caps st))
      else None
  | RClass p =>
      match rest st with
      | ch :: s' => if p ch then k (MState s' (caps st)) else None
      | [] => None
      end
  | RSeq r1 r2 => rmatch r1 st (fun st1 => rmatch r2 st1 k)
  | RAlt r1 r2 =>
      match rmatch r1 st k with
      | Some res => Some res
      | None => rmatch r2 st k
      end
  | RStar p => star_greedy p (rest st) (caps st) k
  | RPlus p =>
      match rest st with
      | ch :: s' => if p ch then star_greedy p s' (caps st) k else None
      | [] => None
      end
  | RGroup n r1 =>
      rmatch r1 st (fun st1 =>
        let captured :=
          take (length (rest st) - length (rest st1)) (rest st) in
        k (MState (rest st1) (<[n := captured]> (caps st1))))
  | RBackref n =>
      match caps st !! n with
      | None => k st
      | Some w =>
          if starts_with w (rest st)
          then k (MState (drop (length w) (rest st)) (caps st))
          else None
      end
  end.

(** The call pattern of both scanning methods,
    [/(React\.createElement|e)\s*\(\s*(?:(Q)([A-Za-z0-9_]+)\2|([A-Za-z0-9_]+))\s*,\s*{/g]
    where [Q] stands for the class of the double and the single quote. *)
Definition call_pattern : regex :=
  RSeq (RGroup 1 (RAlt (RLit (str "React.createElement")) (RLit (str "e"))))
  (RSeq (RStar is_space)
  (RSeq (RLit [ch_lparen])
  (RSeq (RStar is_space)
  (RSeq (RAlt
           (RSeq (RGroup 2 (RClass is_quote))
           (RSeq (RGroup 3 (RPlus is_word))
                 (RBackref 2)))
           (RGroup 4 (RPlus is_word)))
  (RSeq (RStar is_space)
  (RSeq (RLit [ch_comma])
  (RSeq (RStar is_space)
        (RLit [ch_lbrace])))))))).

(** ** RegExp objects and [exec] *)

(** A RegExp object with the [g] flag: [exec] reads and writes
    [lastIndex]. *)
Record RegExp : Type := mkRegExp {
  source : regex;
  lastIndex : nat
}.

(** The array [exec] returns: [m_text] is [match[0]], [m_index] is
    [match.index], [m_groups !! n] is [match[n]] ([None] is
    [undefined]). *)
Record Match : Type := mkMatch {
  m_index : nat;
  m_text : jstring;
  m_groups : gmap nat jstring
}.

Definition m_end (m : Match) : nat := (m_index m + length (m_text m))%nat.

(** Try the start positions [i], [i+1], ... up to and including the end
    of the input; [s] is the input from [i] on. *)
Fixpoint search (r : regex) (s : jstring) (i : nat) : option Match :=
  match rmatch r (MState s ∅) Some with
  | Some st => Some (mkMatch i (take (length s - length (rest st)) s) (caps st))
  | None =>
      match s with
      | [] => None
      | _ :: s' => search r s' (S i)
      end
  end.

Definition exec (re : RegExp) (text : jstring) : option Match * RegExp :=
  if (length text <? lastIndex re)%nat then (None, mkRegExp (source re) 0%nat)
  else
    match search (source re) (drop (lastIndex re) text) (lastIndex re) with
    | Some m => (Some m, mkRegExp (source re) (m_end m))
    | None => (None, mkRegExp (source re) 0%nat)
    end.

(** ** Outcomes of a method call *)

Inductive error : Type :=
| TypeError.

(** A call returns, throws, or is cut off by the iteration budget of a
    scanning loop (the proofs show the budget given is always enough). *)
Inductive result (A : Type) : Type :=
| Ret (a : A)
| Throw (e : error)
| Unfinished.

Arguments Ret {A} a.
Arguments Throw {A} e.
Arguments Unfinished {A}.

#[global] Instance result_ret : MRet result := fun A a => Ret a.

#[global] Instance result_bind : MBind result := fun A B f x =>
  match x with
  | Ret a => f a
  | Throw e => Throw e
  | Unfinished => Unfinished
  end.

(** [while ((match = pattern.exec(text)) !== null) { acc = body(acc, match) }] *)
Fixpoint exec_loop {A : Type} (fuel : nat) (re : RegExp) (text : jstring)
    (body : A -> Match -> A) (acc : A) : result A :=
  match fuel with
  | O => Unfinished
  | S fuel' =>
      match exec re text with
      | (None, _) => Ret acc
      | (Some m, re') => exec_loop fuel' re' text body (body acc m)
      end
  end.

(** ** Values and plain objects *)

(** What a property lookup on a property map can produce. *)
Inductive value : Type :=
| VUndefined
| VArray (items : list jstring)   (* a string[] *)
| VFunction (arity : nat)         (* a built-in method; [.length] is its arity *)
| VObjectPrototype.               (* the object [Object.prototype] itself *)

(** The members every plain object inherits from [Object.prototype]. *)
Definition object_prototype : gmap jstring value :=
  list_to_map
    [ (str "constructor", VFunction 1);
      (str "hasOwnProperty", VFunction 1);
      (str "isPrototypeOf", VFunction 1);
      (str "propertyIsEnumerable", VFunction 1);
      (str "toLocaleString", VFunction 0);
      (str "toString", VFunction 0);
      (str "valueOf", VFunction 0);
      (str "__defineGetter__", VFunction 2);
      (str "__defineSetter__", VFunction 2);
      (str "__lookupGetter__", VFunction 1);
      (str "__lookupSetter__", VFunction 1);
      (str "__proto__", VObjectPrototype) ].

(** [obj[key]] on a [Record<string, string[]>]: own keys first, then the
    prototype. *)
Definition get (obj : gmap jstring (list jstring)) (key : jstring) : value :=
  match obj !! key with
  | Some items => VArray items
  | None => default VUndefined (object_prototype !! key)
  end.

Definition truthy (v : value) : bool :=
  match v with
  | VUndefined => false
  | _ => true
  end.

(** [a || b] *)
Definition or_value (a b : value) : value := if truthy a then a else b.

(** [v.length === 0], for a [v] that is not [undefined]. *)
Definition length_is_zero (v : value) : bool :=
  match v with
  | VArray items => bool_decide (length items = 0%nat)
  | VFunction arity => bool_decide (arity = 0%nat)
  | VObjectPrototype | VUndefined => false
  end.

(** Truthiness of a string that may be [undefined]. *)
Definition truthy_str (s : option jstring) : bool :=
  match s with
  | Some (_ :: _) => true
  | _ => false
  end.

Definition or_str (a b : option jstring) : option jstring :=
  if truthy_str a then a else b.

(** ** The built-in defaults *)

Definition defaultPropsMap : gmap jstring (list jstring) :=
  list_to_map
    [ (str "TextLabel",
        map str
          [ "Text"; "TextColor3"; "TextTransparency"; "TextStrokeColor3";
            "TextStrokeTransparency"; "Font"; "TextSize"; "RichText";
            "TextWrapped"; "TextXAlignment"; "TextYAlignment";
            "BackgroundColor3"; "BackgroundTransparency"; "BorderSizePixel";
            "BorderColor3"; "Size"; "Position"; "AnchorPoint"; "Visible";
            "ZIndex"; "LayoutOrder" ]%string);
      (str "Frame",
        map str
          [ "BackgroundColor3"; "BackgroundTransparency"; "BorderSizePixel";
            "BorderColor3"; "Size"; "Position"; "AnchorPoint"; "Visible";
            "ZIndex"; "LayoutOrder"; "AutomaticSize" ]%string);
      (str "ImageLabel",
        map str
          [ "Image"; "ImageColor3"; "ImageTransparency"; "ScaleType";
            "SliceCenter"; "BackgroundColor3"; "BackgroundTransparency";
            "BorderSizePixel"; "BorderColor3"; "Size"; "Position";
            "AnchorPoint"; "Visible"; "ZIndex"; "LayoutOrder" ]%string) ].

Arguments defaultPropsMap : simpl never.
Arguments object_prototype : simpl never.

(** ** The provider *)

Inductive CompletionItemKind : Type :=
| Property.

Record CompletionItem : Type := mkItem {
  label : jstring;
  kind : CompletionItemKind;
  insertText : jstring;     (* the value of the SnippetString *)
  detail : jstring
}.

(** The workspace setting [reactLuauPropsHelper.props]: [None] when the
    lookup yields nothing and [config.get] falls back to its second
    argument. *)
Abbreviation settings := (option (gmap jstring (list jstring))).

(** [document.getText(new Range(new Position(0, 0), position))], with the
    position given as an offset. The host clamps the range to the
    document, so an offset past the end reads up to the end. *)
Definition getText (document : jstring) (position : nat) : jstring :=
  take position document.

(** [s.slice(start)] for [0 <= start]. *)
Definition slice (s : jstring) (start : nat) : jstring := drop start s.

Definition maxLookback : nat := 2000.

(** The text the scanning methods are given: lines 87-96. *)
Definition window (document : jstring) (position : nat) : jstring :=
  let textBeforeCursor := getText document position in
  if (maxLookback <? length textBeforeCursor)%nat
  then slice textBeforeCursor (length textBeforeCursor - maxLookback)
  else textBeforeCursor.

(** [match[3] || match[4]] *)
Definition captured_class (m : Match) : option jstring :=
  or_str (m_groups m !! 3%nat) (m_groups m !! 4%nat).

Definition getEnclosingClassName (text : jstring) : result (option jstring) :=
  let pattern := mkRegExp call_pattern 0 in
  exec_loop (S (length text)) pattern text
    (fun lastClassName m =>
       let className := captured_class m in
       if truthy_str className then className else lastClassName)
    None.

(** [s.lastIndexOf(c)], scanning [s] from offset [i] on with [acc] the
    last hit so far. *)
Fixpoint last_index_from (c : N) (s : jstring) (i acc : Z) : Z :=
  match s with
  | [] => acc
  | x :: s' => last_index_from c s' (i + 1)%Z (if x =? c then i else acc)
  end.

Definition lastIndexOf (s : jstring) (c : N) : Z :=
  last_index_from c s 0%Z (-1)%Z.

(** The first loop of [isInsidePropsObject]: lines 155-167. *)
Definition findPropsStart (text className : jstring) : result Z :=
  let pattern := mkRegExp call_pattern 0 in
  exec_loop (S (length text)) pattern text
    (fun propsStartIndex m =>
       let matchedClassName := captured_class m in
       if bool_decide (matchedClassName ≠ Some className) then propsStartIndex
       else
         let braceIndexInMatch := lastIndexOf (m_text m) ch_lbrace in
         (Z.of_nat (m_index m) + braceIndexInMatch)%Z)
    (-1)%Z.

(** The second loop of [isInsidePropsObject]: lines 173-188. [s] is the
    text from index [i] on; the result is the flag [ended]. *)
Fixpoint brace_walk (s : jstring) (i propsStartIndex depth : Z) : bool :=
  match s with
  | [] => false
  | ch :: s' =>
      if ch =? ch_lbrace then brace_walk s' (i + 1)%Z propsStartIndex (depth + 1)%Z
      else if ch =? ch_rbrace then
        let depth' := (depth - 1)%Z in
        if (depth' =? 0)%Z && (propsStartIndex <? i)%Z then true
        else brace_walk s' (i + 1)%Z propsStartIndex depth'
      else brace_walk s' (i + 1)%Z propsStartIndex depth
  end.

Definition isInsidePropsObject (text className : jstring) : result bool :=
  propsStartIndex ← findPropsStart text className;
  if (propsStartIndex =? -1)%Z then Ret false
  else
    let ended :=
      brace_walk (drop (Z.to_nat propsStartIndex) text)
        propsStartIndex propsStartIndex 0%Z in
    Ret (negb ended).

Definition getPropsForClass (config : settings) (className : jstring) : value :=
  let userMap := default defaultPropsMap config in
  or_value (get userMap className) (get defaultPropsMap className).

Definition buildItem (className name : jstring) : CompletionItem :=
  mkItem name Property
    (name ++ str " = $0")
    (className ++ str " property (React Luau helper)").

(** [props.map(...)]: only an array has a [map] method. *)
Definition buildItemsForProps (className : jstring) (props : value)
    : result (list CompletionItem) :=
  match props with
  | VArray items => Ret (map (buildItem className) items)
  | _ => Throw TypeError
  end.

(** The scanning and building steps of [provideCompletionItems] (lines
    98-113) on the text before the cursor. [None] is [undefined]. *)
Definition complete (config : settings) (textBeforeCursor : jstring)
    : result (option (list CompletionItem)) :=
  className ← getEnclosingClassName textBeforeCursor;
  match className with
  | Some ((_ :: _) as className) =>
      let props := getPropsForClass config className in
      if negb (truthy props) || length_is_zero props then Ret None
      else
        inside ← isInsidePropsObject textBeforeCursor className;
        if negb inside then Ret None
        else
          items ← buildItemsForProps className props;
          Ret (Some items)
  | _ => Ret None
  end.

Definition provideCompletionItems (config : settings) (document : jstring)
    (position : nat) : result (option (list CompletionItem)) :=
  complete config (window document position).

(** * The methods with the objects they mutate

    The definitions above give each scanning method a RegExp object of its
    own and read [defaultPropsMap] as a constant. Here the objects that
    outlive a statement are kept in a heap that every call reads and
    writes: the RegExp objects, whose [lastIndex] [exec] updates, and the
    object bound to [defaultPropsMap]. The provider object has no fields.
    Evaluating a regular expression literal creates a new object, so each
    call of a scanning method allocates its pattern. *)

Module Heap.

Record heap : Type := mkHeap {
  regexps : list RegExp;                     (* by address *)
  defaults : gmap jstring (list jstring)     (* the object [defaultPropsMap] *)
}.

(** The heap once the module has been loaded. *)
Definition initial : heap := mkHeap [] defaultPropsMap.

Definition M (A : Type) : Type := heap → result A * heap.

#[global] Instance M_ret : MRet M := λ A a h, (Ret a, h).

#[global] Instance M_bind : MBind M := λ A B f x h,
  match x h with
  | (Ret a, h') => f a h'
  | (Throw e, h') => (Throw e, h')
  | (Unfinished, h') => (Unfinished, h')
  end.

(** A step that touches no object. *)
Definition lift {A : Type} (x : result A) : M A := λ h, (x, h).

(** [/.../g]: a new RegExp object, [lastIndex] 0; the result is its
    address. *)
Definition new_regexp (r : regex) : M nat := λ h,
  (Ret (length (regexps h)),
   mkHeap (regexps h ++ [mkRegExp r 0]) (defaults h)).

(** [pattern.exec(text)] on the object at address [pattern]. *)
Definition exec (pattern : nat) (text : jstring) : M (option Match) := λ h,
  match regexps h !! pattern with
  | Some re =>
      let '(m, re') := exec re text in
      (Ret m, mkHeap (<[pattern := re']> (regexps h)) (defaults h))
  | None => (Throw TypeError, h)
  end.

(** Reading the binding [defaultPropsMap]. *)
Definition read_defaults : M (gmap jstring (list jstring)) := λ h,
  (Ret (defaults h), h).

Fixpoint exec_loop {A : Type} (fuel : nat) (pattern : nat) (text : jstring)
    (body : A → Match → A) (acc : A) : M A :=
  match fuel with
  | O => lift Unfinished
  | S fuel' =>
      m ← exec pattern text;
      match m with
      | None => mret acc
      | Some m => exec_loop fuel' pattern text body (body acc m)
      end
  end.

Definition getEnclosingClassName (text : jstring) : M (option jstring) :=
  pattern ← new_regexp call_pattern;
  exec_loop (S (length text)) pattern text
    (λ lastClassName m,
       let className := captured_class m in
       if truthy_str className then className else lastClassName)
    None.

Definition findPropsStart (text className : jstring) : M Z :=
  pattern ← new_regexp call_pattern;
  exec_loop (S (length text)) pattern text
    (λ propsStartIndex m,
       let matchedClassName := captured_class m in
       if bool_decide (matchedClassName ≠ Some className) then propsStartIndex
       else
         let braceIndexInMatch := lastIndexOf (m_text m) ch_lbrace in
         (Z.of_nat (m_index m) + braceIndexInMatch)%Z)
    (-1)%Z.

Definition isInsidePropsObject (text className : jstring) : M bool :=
  propsStartIndex ← findPropsStart text className;
  if (propsStartIndex =? -1)%Z then mret false
  else
    let ended :=
      brace_walk (drop (Z.to_nat propsStartIndex) text)
        propsStartIndex propsStartIndex 0%Z in
    mret (negb ended).

Definition getPropsForClass (config : settings) (className : jstring)
    : M value :=
  defaultPropsMap ← read_defaults;
  let userMap := default defaultPropsMap config in
  mret (or_value (get userMap className) (get defaultPropsMap className)).

Definition complete (config : settings) (textBeforeCursor : jstring)
    : M (option (list CompletionItem)) :=
  className ← getEnclosingClassName textBeforeCursor;
  match className with
  | Some ((_ :: _) as className) =>
      props ← getPropsForClass config className;
      if negb (truthy props) || length_is_zero props then mret None
      else
        inside ← isInsidePropsObject textBeforeCursor className;
        if negb inside then mret None
        else
          items ← lift (buildItemsForProps className props);
          mret (Some items)
  | _ => mret None
  end.

Definition provideCompletionItems (config : settings) (document : jstring)
    (position : nat) : M (option (list CompletionItem)) :=
  complete config (window document position).

(** One query of the host. *)
Record query : Type := mkQuery {
  q_config : settings;
  q_document : jstring;
  q_position : nat
}.

Definition run (q : query) : M (option (list CompletionItem)) :=
  provideCompletionItems (q_config q) (q_document q) (q_position q).

(** The heap after the queries [qs] have been answered one after the
    other, from [h] on. *)
Definition after_from (h : heap) (qs : list query) : heap :=
  fold_left (λ h q, snd (run q h)) qs h.

Definition after (qs : list query) : heap := after_from initial qs.

End Heap.

(** * Specification-level definitions *)

(** ** What a pattern matches, read declaratively *)

(** [Matches r st st'] : [r] can consume the input between [st] and
    [st'], leaving the captures of [st']. No priorities, no
    backtracking. *)
Fixpoint Matches (r : regex) (st st' : mstate) : Prop :=
  match r with
  | RLit w => rest st = w ++ rest st' ∧ caps st' = caps st
  | RClass p =>
      ∃ ch, p ch = true ∧ rest st = ch :: rest st' ∧ caps st' = caps st
  | RSeq r1 r2 => ∃ mid, Matches r1 st mid ∧ Matches r2 mid st'
  | RAlt r1 r2 => Matches r1 st st' ∨ Matches r2 st st'
  | RStar p =>
      ∃ w, forallb p w = true ∧ rest st = w ++ rest st' ∧ caps st' = caps st
  | RPlus p =>
      ∃ w, w ≠ [] ∧ forallb p w = true ∧ rest st = w ++ rest st'
           ∧ caps st' = caps st
  | RGroup n r1 =>
      ∃ w c1, Matches r1 st (MState (rest st') c1)
              ∧ rest st = w ++ rest st' ∧ caps st' = <[n := w]> c1
  | RBackref n =>
      match caps st !! n with
      | None => st' = st
      | Some w => rest st = w ++ rest st' ∧ caps st' = caps st
      end
  end.

(** ** Call sites *)

(** The pieces of one occurrence of the call pattern: the call token,
    the white space around the parenthesis, the class name with or
    without quotes, the white space around the comma. *)
Record call_site : Type := mkCall {
  callee : jstring;
  ws1 : jstring;
  ws2 : jstring;
  quote : option N;
  cls : jstring;
  ws3 : jstring;
  ws4 : jstring
}.

Definition call_arg (c : call_site) : jstring :=
  match quote c with
  | Some q => q :: cls c ++ [q]
  | None => cls c
  end.

Definition call_text (c : call_site) : jstring :=
  callee c ++ ws1 c ++ ch_lparen :: ws2 c ++ call_arg c
    ++ ws3 c ++ ch_comma :: ws4 c ++ [ch_lbrace].

Definition call_groups (c : call_site) : gmap nat jstring :=
  match quote c with
  | Some q => <[3%nat := cls c]> (<[2%nat := [q]]> (<[1%nat := callee c]> ∅))
  | None => <[4%nat := cls c]> (<[1%nat := callee c]> ∅)
  end.

Definition is_call (c : call_site) : bool :=
  (bool_decide (callee c = str "React.createElement")
   || bool_decide (callee c = str "e"))
  && forallb is_space (ws1 c) && forallb is_space (ws2 c)
  && match quote c with Some q => is_quote q | None => true end
  && bool_decide (cls c ≠ []) && forallb is_word (cls c)
  && forallb is_space (ws3 c) && forallb is_space (ws4 c).

(** The array [exec] returns for the call site [c] found at index [i]. *)
Definition match_of (i : nat) (c : call_site) : Match :=
  mkMatch i (call_text c) (call_groups c).

(** The call site [c] occurs in [text] at index [i]. *)
Definition occurs_at (text : jstring) (i : nat) (c : call_site) : Prop :=
  is_call c = true
  ∧ ∃ pre post, text = pre ++ call_text c ++ post ∧ length pre = i.

(** ** The matches a scanning loop sees *)

(** The successive results of [pattern.exec(text)] until it yields
    [null], under the same iteration budget as [exec_loop]. *)
Fixpoint scan (fuel : nat) (re : RegExp) (text : jstring)
    : option (list Match) :=
  match fuel with
  | O => None
  | S fuel' =>
      match exec re text with
      | (None, _) => Some []
      | (Some m, re') => cons m <$> scan fuel' re' text
      end
  end.

Definition all_matches (text : jstring) : list Match :=
  default [] (scan (S (length text)) (mkRegExp call_pattern 0) text).

(** [s] does not start with a character of the class [p]. *)
Definition no_head (p : N → bool) (s : jstring) : Prop :=
  match s with
  | [] => True
  | ch :: _ => p ch = false
  end.

(** Neither an opening parenthesis nor an opening brace. *)
Definition plain (c : N) : bool :=
  negb (c =? ch_lparen) && negb (c =? ch_lbrace).

(** The text before the parenthesis and the text between the
    parenthesis and the brace. *)
Definition call_head (c : call_site) : jstring := callee c ++ ws1 c.

Definition call_body (c : call_site) : jstring :=
  ws2 c ++ call_arg c ++ ws3 c ++ [ch_comma] ++ ws4 c.

(** [ms] lists, in order and without overlap, exactly the occurrences
    that start at index [li] or later. *)
Definition lists_from (text : jstring) (li : nat) (ms : list Match) : Prop :=
  Forall (λ m, ∃ i c, occurs_at text i c ∧ (li ≤ i)%nat ∧ m = match_of i c) ms
  ∧ (∀ i c, occurs_at text i c → (li ≤ i)%nat → match_of i c ∈ ms)
  ∧ StronglySorted (λ m1 m2, (m_end m1 ≤ m_index m2)%nat) ms.

(** ** Brace depth *)

(** What one character does to the depth counter. *)
Definition brace_delta (c : N) : Z :=
  if c =? ch_lbrace then 1%Z else if c =? ch_rbrace then (-1)%Z else 0%Z.

(** The depth counter after the characters of [s], starting from 0. *)
Definition brace_depth (s : jstring) : Z :=
  foldr (λ c d, (brace_delta c + d)%Z) 0%Z s.

(** The depth counter after the characters [start], ..., [i] of [text]. *)
Definition depth_at (text : jstring) (start i : nat) : Z :=
  brace_depth (take (S i - start) (drop start text)).

(** The index of the opening brace of the call site [c] found at index
    [i]. *)
Definition brace_index (i : nat) (c : call_site) : nat :=
  (i + length (call_text c) - 1)%nat.

(** ** Texts after the opening brace *)

Definition is_brace (c : N) : bool := (c =? ch_lbrace) || (c =? ch_rbrace).

(** No brace of either kind in [w]. *)
Definition brace_free (w : jstring) : bool :=
  forallb (λ c, negb (is_brace c)) w.

(** No opening brace in [w]. *)
Definition lbrace_free (w : jstring) : bool :=
  forallb (λ c, negb (c =? ch_lbrace)) w.

(** No opening parenthesis in [w]. *)
Definition lparen_free (w : jstring) : bool :=
  forallb (λ c, negb (c =? ch_lparen)) w.


(** * Properties *)

(** ** Character classes *)

Ltac class_arith :=
  unfold is_space, is_word, is_quote,
    ch_dquote, ch_squote, ch_lparen, ch_comma, ch_lbrace, ch_rbrace in *;
  repeat match goal with
  | |- _ = false => apply not_true_iff_false; intro
  | H : _ = false |- _ => apply not_true_iff_false in H
  end;
  rewrite ?orb_true_iff, ?andb_true_iff, ?N.eqb_eq, ?N.leb_le in *;
  lia.

Lemma space_not_word c : is_space c = true → is_word c = false.
Proof. intros. class_arith. Qed.

Lemma space_not_quote c : is_space c = true → is_quote c = false.
Proof. intros. class_arith. Qed.

Lemma word_not_quote c : is_word c = true → is_quote c = false.
Proof. intros. class_arith. Qed.

Lemma word_not_space c : is_word c = true → is_space c = false.
Proof. intros. class_arith. Qed.

Lemma quote_not_word c : is_quote c = true → is_word c = false.
Proof. intros. class_arith. Qed.

Lemma quote_not_space c : is_quote c = true → is_space c = false.
Proof. intros. class_arith. Qed.

Lemma space_not_punct c :
  is_space c = true → c ≠ ch_lparen ∧ c ≠ ch_comma ∧ c ≠ ch_lbrace.
Proof. intros. class_arith. Qed.

Lemma word_not_punct c :
  is_word c = true → c ≠ ch_lparen ∧ c ≠ ch_comma ∧ c ≠ ch_lbrace.
Proof. intros. class_arith. Qed.

Lemma quote_not_punct c :
  is_quote c = true → c ≠ ch_lparen ∧ c ≠ ch_comma ∧ c ≠ ch_lbrace.
Proof. intros. class_arith. Qed.

(** ** Prefixes *)

Ltac norm_app := repeat (progress (rewrite <- ?app_assoc; cbn [app])).

Lemma starts_with_app w s : starts_with w (w ++ s) = true.
Proof. induction w as [|a w IH]; simpl; [done|]. by rewrite N.eqb_refl. Qed.

Lemma starts_with_spec w s :
  starts_with w s = true → s = w ++ drop (length w) s.
Proof.
  revert s. induction w as [|a w IH]; intros [|b s]; simpl; try done.
  intros [Hab Hw]%andb_prop. apply N.eqb_eq in Hab as ->.
  f_equal. by apply IH.
Qed.

Lemma take_consumed {A} (w r : list A) :
  take (length (w ++ r) - length r) (w ++ r) = w.
Proof.
  rewrite length_app.
  replace (length w + length r - length r)%nat with (length w) by lia.
  by rewrite take_app_length.
Qed.

(** ** The matcher is sound for the declarative reading *)

Lemma Matches_consumes r : ∀ st st',
  Matches r st st' → ∃ w, rest st = w ++ rest st'.
Proof.
  induction r as [w|p|r1 IH1 r2 IH2|r1 IH1 r2 IH2|p|p|n r1 IH1|n];
    intros st st'; simpl.
  - intros [? _]; eauto.
  - intros (ch & _ & ? & _). by exists [ch].
  - intros (mid & [w1 H1]%IH1 & [w2 H2]%IH2).
    exists (w1 ++ w2). by rewrite H1, H2, app_assoc.
  - intros [?%IH1 | ?%IH2]; done.
  - intros (w & _ & ? & _); eauto.
  - intros (w & _ & _ & ? & _); eauto.
  - intros (w & c1 & _ & ? & _); eauto.
  - destruct (caps st !! n).
    + intros [? _]; eauto.
    + intros ->. by exists [].
Qed.

Lemma star_greedy_sound p c k : ∀ s res,
  star_greedy p s c k = Some res →
  ∃ w s', s = w ++ s' ∧ forallb p w = true ∧ k (MState s' c) = Some res.
Proof.
  induction s as [|ch s IH]; intros res; simpl.
  - intros Hk. by exists [], [].
  - destruct (p ch) eqn:Hp.
    + destruct (star_greedy p s c k) as [r|] eqn:Hs.
      * intros [= <-]. destruct (IH r eq_refl) as (w & s' & -> & Hw & Hk).
        exists (ch :: w), s'. simpl. by rewrite Hp, Hw.
      * intros Hk. by exists [], (ch :: s).
    + intros Hk. by exists [], (ch :: s).
Qed.

Lemma rmatch_sound r : ∀ st k res,
  rmatch r st k = Some res → ∃ st', Matches r st st' ∧ k st' = Some res.
Proof.
  induction r as [w|p|r1 IH1 r2 IH2|r1 IH1 r2 IH2|p|p|n r1 IH1|n];
    intros [s c] k res; simpl.
  - destruct (starts_with w s) eqn:Hw; [|done]. intros Hk.
    eexists; split; [|exact Hk]. simpl. by split; [apply starts_with_spec|].
  - destruct s as [|ch s]; [done|]. destruct (p ch) eqn:Hp; [|done].
    intros Hk. eexists; split; [|exact Hk]. by exists ch.
  - intros (mid & H1 & (st' & H2 & Hk)%IH2)%IH1. exists st'. eauto.
  - destruct (rmatch r1 (MState s c) k) as [r|] eqn:H1.
    + intros [= <-]. apply IH1 in H1 as (st' & ? & ?). eauto.
    + intros (st' & ? & ?)%IH2. eauto.
  - intros (w & s' & -> & Hw & Hk)%star_greedy_sound.
    eexists; split; [|exact Hk]. by exists w.
  - destruct s as [|ch s]; [done|]. destruct (p ch) eqn:Hp; [|done].
    intros (w & s' & -> & Hw & Hk)%star_greedy_sound.
    eexists; split; [|exact Hk]. exists (ch :: w). simpl. by rewrite Hp, Hw.
  - intros ([s1 c1] & H1 & Hk)%IH1. simpl in Hk.
    destruct (Matches_consumes _ _ _ H1) as [w Hw]. simpl in Hw. subst s.
    rewrite take_consumed in Hk.
    eexists; split; [|exact Hk]. exists w, c1. by simpl.
  - destruct (c !! n) as [w|] eqn:Hn.
    + destruct (starts_with w s) eqn:Hw; [|done]. intros Hk.
      exists (MState (drop (length w) s) c). split; [|exact Hk].
      by split; [apply starts_with_spec|].
    + intros Hk. by exists (MState s c).
Qed.

(** ** Every match of the call pattern is a call site *)

Lemma call_pattern_sound s st :
  rmatch call_pattern (MState s ∅) Some = Some st →
  ∃ c, is_call c = true ∧ s = call_text c ++ rest st
       ∧ caps st = call_groups c.
Proof.
  intros (st' & HM & [= ->])%rmatch_sound.
  cbn [call_pattern Matches rest caps] in HM.
  destruct HM as ([s1 c1] & (w & c0 & Hcal & Hw & Hc1) & [s2 c2]
    & (w1 & Hw1 & Hs1 & Hc2) & [s3 c3] & (Hs2 & Hc3) & [s4 c4]
    & (w2 & Hw2 & Hs3 & Hc4) & [s5 c5] & Harg & [s6 c6]
    & (w3 & Hw3 & Hs5 & Hc6) & [s7 c7] & (Hs6 & Hc7) & [s8 c8]
    & (w4 & Hw4 & Hs7 & Hc8) & Hs8 & Hcst).
  cbn [rest caps] in *.
  assert (c0 = ∅ ∧ (w = str "React.createElement" ∨ w = str "e"))
    as [-> Hcallee].
  { destruct Hcal as [[Hs ->]|[Hs ->]]; (split; [done|]);
      rewrite Hw in Hs; apply app_inv_tail in Hs; auto. }
  destruct Harg as [([s9 c9] & (wq & cq & (q & Hq & Hs4 & ->) & Hs4' & Hc9)
      & [s10 c10] & (wc & cc & (w0 & Hne & Hword & Hs9 & ->) & Hs9' & Hc10)
      & Hback)
    | (wc & cc & (w0 & Hne & Hword & Hs4 & ->) & Hs4' & Hc5)];
    cbn [rest caps] in *.
  - assert (wq = [q]) as ->.
    { rewrite Hs4' in Hs4. by apply (app_inv_tail s9 wq [q]) in Hs4. }
    assert (wc = w0) as ->.
    { rewrite Hs9' in Hs9. by apply app_inv_tail in Hs9. }
    rewrite Hc10, Hc9, lookup_insert_ne, lookup_insert_eq in Hback by done.
    destruct Hback as [Hs10 Hc5].
    exists (mkCall w w1 w2 (Some q) w0 w3 w4). split; [|split].
    + unfold is_call; simpl. rewrite Hw1, Hw2, Hw3, Hw4, Hq, Hword.
      rewrite (bool_decide_eq_true_2 _ Hne).
      by destruct Hcallee as [-> | ->].
    + unfold call_text, call_arg; simpl. subst.
      by norm_app.
    + unfold call_groups; simpl. congruence.
  - assert (wc = w0) as ->.
    { rewrite Hs4' in Hs4. by apply app_inv_tail in Hs4. }
    exists (mkCall w w1 w2 None w0 w3 w4). split; [|split].
    + unfold is_call; simpl. rewrite Hw1, Hw2, Hw3, Hw4, Hword.
      rewrite (bool_decide_eq_true_2 _ Hne).
      by destruct Hcallee as [-> | ->].
    + unfold call_text, call_arg; simpl. subst.
      by norm_app.
    + unfold call_groups; simpl. congruence.
Qed.

(** ** Every call site is matched *)

Lemma no_head_app (p q : N → bool) w ch s :
  (∀ c, q c = true → p c = false) →
  forallb q w = true → p ch = false → no_head p (w ++ ch :: s).
Proof.
  intros Hqp Hw Hch. destruct w as [|x w]; simpl in *; [done|].
  apply andb_prop in Hw as [Hx _]. by apply Hqp.
Qed.

Lemma star_greedy_run p w s c k res :
  forallb p w = true → no_head p s →
  k (MState s c) = Some res → star_greedy p (w ++ s) c k = Some res.
Proof.
  intros Hw Hs Hk. induction w as [|x w IH]; simpl in *.
  - destruct s as [|ch s]; [done|]. simpl in *. by rewrite Hs.
  - apply andb_prop in Hw as [-> Hw]. by rewrite IH.
Qed.

Lemma rmatch_lit w s c k : rmatch (RLit w) (MState (w ++ s) c) k = k (MState s c).
Proof. simpl. by rewrite starts_with_app, drop_app_length. Qed.

Lemma rmatch_star p w s c k res :
  forallb p w = true → no_head p s →
  k (MState s c) = Some res → rmatch (RStar p) (MState (w ++ s) c) k = Some res.
Proof. apply star_greedy_run. Qed.

Lemma rmatch_plus p w s c k res :
  w ≠ [] → forallb p w = true → no_head p s →
  k (MState s c) = Some res → rmatch (RPlus p) (MState (w ++ s) c) k = Some res.
Proof.
  intros Hne Hw Hs Hk. destruct w as [|x w]; [done|]. simpl in *.
  apply andb_prop in Hw as [-> Hw]. by apply star_greedy_run.
Qed.

Lemma rmatch_alt_l r1 r2 st k res :
  rmatch r1 st k = Some res → rmatch (RAlt r1 r2) st k = Some res.
Proof. simpl. by intros ->. Qed.

Lemma rmatch_alt_r r1 r2 st k res :
  rmatch r1 st k = None → rmatch r2 st k = Some res →
  rmatch (RAlt r1 r2) st k = Some res.
Proof. simpl. by intros ->. Qed.

Lemma rmatch_seq r1 r2 st k :
  rmatch (RSeq r1 r2) st k = rmatch r1 st (λ st1, rmatch r2 st1 k).
Proof. done. Qed.

Lemma rmatch_group n r1 st k :
  rmatch (RGroup n r1) st k
  = rmatch r1 st (λ st1,
      k (MState (rest st1)
           (<[n := take (length (rest st) - length (rest st1)) (rest st)]>
              (caps st1)))).
Proof. done. Qed.

Lemma rmatch_lit1 a s c k :
  rmatch (RLit [a]) (MState (a :: s) c) k = k (MState s c).
Proof. apply (rmatch_lit [a]). Qed.

Lemma rmatch_class p a s c k :
  p a = true → rmatch (RClass p) (MState (a :: s) c) k = k (MState s c).
Proof. simpl. by intros ->. Qed.

Lemma take_consumed1 {A} (a : A) (r : list A) :
  take (length (a :: r) - length r) (a :: r) = [a].
Proof. apply (take_consumed [a]). Qed.

(** The part of the pattern after the class name. *)
Lemma call_tail_complete w3 w4 s c0 :
  forallb is_space w3 = true → forallb is_space w4 = true →
  rmatch
    (RSeq (RStar is_space)
       (RSeq (RLit [ch_comma]) (RSeq (RStar is_space) (RLit [ch_lbrace]))))
    (MState (w3 ++ ch_comma :: w4 ++ ch_lbrace :: s) c0) Some
  = Some (MState s c0).
Proof.
  intros Hw3 Hw4.
  rewrite rmatch_seq. apply rmatch_star; [done..|]. cbn beta.
  rewrite rmatch_seq, rmatch_lit1.
  rewrite rmatch_seq. apply rmatch_star; [done..|]. cbn beta.
  by rewrite rmatch_lit1.
Qed.

Lemma call_pattern_complete c s :
  is_call c = true →
  rmatch call_pattern (MState (call_text c ++ s) ∅) Some
  = Some (MState s (call_groups c)).
Proof.
  destruct c as [w w1 w2 oq cl w3 w4]. unfold is_call, call_text, call_arg,
    call_groups. cbn [callee ws1 ws2 quote cls ws3 ws4].
  rewrite !andb_true_iff, orb_true_iff, !bool_decide_eq_true.
  intros [[[[[[[Hw Hw1] Hw2] Hq] Hne] Hcl] Hw3] Hw4].
  norm_app. unfold call_pattern.
  assert (∀ c0,
    rmatch
      (RSeq (RStar is_space)
        (RSeq (RLit [ch_lparen])
        (RSeq (RStar is_space)
        (RSeq (RAlt
                 (RSeq (RGroup 2 (RClass is_quote))
                 (RSeq (RGroup 3 (RPlus is_word)) (RBackref 2)))
                 (RGroup 4 (RPlus is_word)))
        (RSeq (RStar is_space)
        (RSeq (RLit [ch_comma])
        (RSeq (RStar is_space) (RLit [ch_lbrace])))))))) 
      (MState (w1 ++ ch_lparen :: w2
               ++ match oq with Some q => q :: cl ++ [q] | None => cl end
               ++ w3 ++ ch_comma :: w4 ++ ch_lbrace :: s) c0) Some
    = Some (MState s
        match oq with
        | Some q => <[3%nat:=cl]> (<[2%nat:=[q]]> c0)
        | None => <[4%nat:=cl]> c0
        end)) as Htail.
  { intros c0.
    rewrite rmatch_seq. apply rmatch_star; [done..|]. cbn beta.
    rewrite rmatch_seq, rmatch_lit1.
    rewrite rmatch_seq. apply rmatch_star; [done| |]; destruct oq as [q|].
    - simpl. by apply quote_not_space.
    - destruct cl as [|x cl]; [done|]. simpl in *.
      apply andb_prop in Hcl as [Hx _]. by apply word_not_space.
    - cbn beta. norm_app. rewrite rmatch_seq. apply rmatch_alt_l.
      rewrite rmatch_seq, rmatch_group, rmatch_class by done.
      cbn [rest caps]. rewrite take_consumed1.
      rewrite rmatch_seq, rmatch_group.
      apply rmatch_plus; [done..| by apply quote_not_word |].
      cbn [rest caps]. rewrite take_consumed.
      cbn [rmatch caps rest].
      rewrite lookup_insert_ne, lookup_insert_eq by done.
      cbn [starts_with length drop]. rewrite N.eqb_refl. cbn [andb].
      by apply call_tail_complete.
    - cbn beta. rewrite rmatch_seq. apply rmatch_alt_r.
      + destruct cl as [|x cl]; [done|]. simpl in Hcl.
        apply andb_prop in Hcl as [Hx _]. apply word_not_quote in Hx.
        cbn [rmatch rest app]. by rewrite Hx.
      + rewrite rmatch_group.
        apply rmatch_plus; [done..| |].
        * by apply (no_head_app _ is_space); [apply space_not_word|..].
        * cbn [rest caps]. rewrite take_consumed.
          by apply call_tail_complete. }
  rewrite rmatch_seq, rmatch_group. destruct Hw as [-> | ->].
  - apply rmatch_alt_l. rewrite rmatch_lit. cbn [rest caps].
    rewrite take_consumed. apply Htail.
  - apply rmatch_alt_r.
    + unfold str. simpl. done.
    + rewrite rmatch_lit. cbn [rest caps].
      rewrite take_consumed. apply Htail.
Qed.

(** ** Shape of a call site *)

Lemma call_text_length c : (0 < length (call_text c))%nat.
Proof. unfold call_text. rewrite !length_app. simpl. lia. Qed.

Lemma occurs_at_nil n c : ¬ occurs_at [] n c.
Proof.
  intros (_ & pre & post & H & _). apply (f_equal length) in H.
  rewrite !length_app in H. pose proof (call_text_length c). simpl in H. lia.
Qed.

Lemma occurs_at_0 s c :
  occurs_at s 0 c ↔ is_call c = true ∧ ∃ post, s = call_text c ++ post.
Proof.
  split.
  - intros (Hc & pre & post & -> & Hpre). destruct pre; [|done]. eauto.
  - intros (Hc & post & ->). split; [done|]. by exists [], post.
Qed.

Lemma occurs_at_cons x s n c : occurs_at (x :: s) (S n) c ↔ occurs_at s n c.
Proof.
  split.
  - intros (Hc & pre & post & H & Hpre). destruct pre as [|y pre]; [done|].
    injection H as -> ->. injection Hpre as <-. split; [done|]. eauto.
  - intros (Hc & pre & post & -> & <-). split; [done|].
    by exists (x :: pre), post.
Qed.

Lemma occurs_at_bound s n c :
  occurs_at s n c → (n + length (call_text c) ≤ length s)%nat.
Proof.
  intros (_ & pre & post & -> & <-). rewrite !length_app. lia.
Qed.

(** ** What [exec] finds *)

Lemma rmatch_occurs s st i :
  rmatch call_pattern (MState s ∅) Some = Some st →
  ∃ c, occurs_at s 0 c
       ∧ mkMatch i (take (length s - length (rest st)) s) (caps st)
         = match_of i c.
Proof.
  intros (c & Hc & -> & Hcaps)%call_pattern_sound. exists c. split.
  - apply occurs_at_0; eauto.
  - unfold match_of. by rewrite take_consumed, Hcaps.
Qed.

Lemma rmatch_occurs_inv s c i :
  occurs_at s 0 c →
  ∃ st, rmatch call_pattern (MState s ∅) Some = Some st
        ∧ mkMatch i (take (length s - length (rest st)) s) (caps st)
          = match_of i c.
Proof.
  intros (Hc & post & ->)%occurs_at_0. eexists. split.
  - by apply call_pattern_complete.
  - unfold match_of. cbn [rest caps]. by rewrite take_consumed.
Qed.

(** [search] returns the leftmost occurrence, and nothing only when
    there is none. *)
Lemma search_spec s : ∀ i,
  match search call_pattern s i with
  | Some m =>
      ∃ n c, occurs_at s n c ∧ m = match_of (i + n) c
             ∧ ∀ n' c', occurs_at s n' c' →
                 (n ≤ n')%nat ∧ (n' = n → match_of (i + n) c' = m)
  | None => ∀ n c, ¬ occurs_at s n c
  end.
Proof.
  induction s as [|x s IH]; intros i; cbn [search].
  - destruct (rmatch call_pattern (MState [] ∅) Some) as [st|] eqn:Hm.
    + apply (rmatch_occurs _ _ i) in Hm as (c & []%occurs_at_nil & _).
    + intros n c. apply occurs_at_nil.
  - destruct (rmatch call_pattern (MState (x :: s) ∅) Some) as [st|] eqn:Hm.
    + destruct (rmatch_occurs _ _ i Hm) as (c & Hc & Heq).
      exists 0%nat, c. rewrite Nat.add_0_r. split; [done|]. split; [done|].
      intros n' c' Hc'. split; [lia|]. intros ->.
      destruct (rmatch_occurs_inv _ _ i Hc') as (st' & Hm' & <-).
      congruence.
    + specialize (IH (S i)).
      destruct (search call_pattern s (S i)) as [m|].
      * destruct IH as (n & c & Hc & -> & Hleft). exists (S n), c.
        replace (i + S n)%nat with (S i + n)%nat by lia.
        split; [by apply occurs_at_cons|]. split; [done|].
        intros [|n'] c' Hc'.
        { destruct (rmatch_occurs_inv _ _ i Hc') as (st' & Hm' & _).
          congruence. }
        apply (proj1 (occurs_at_cons _ _ _ _)) in Hc'.
        destruct (Hleft _ _ Hc') as [? Hsame].
        split; [lia|]. intros [= ->]. by apply Hsame.
      * intros [|n] c Hc.
        { destruct (rmatch_occurs_inv _ _ i Hc) as (st' & Hm' & _).
          congruence. }
        apply (proj1 (occurs_at_cons _ _ _ _)) in Hc. by apply IH in Hc.
Qed.

(** ** Occurrences do not overlap *)

Lemma split_unique (p : N → bool) h1 : ∀ h2 a b r1 r2,
  forallb p h1 = true → forallb p h2 = true → p a = false → p b = false →
  h1 ++ a :: r1 = h2 ++ b :: r2 → h1 = h2 ∧ a = b ∧ r1 = r2.
Proof.
  induction h1 as [|x h1 IH]; intros [|y h2] a b r1 r2 H1 H2 Ha Hb Heq;
    simpl in *.
  - by injection Heq as -> ->.
  - injection Heq as -> _. apply andb_prop in H2 as [? _]. congruence.
  - injection Heq as -> _. apply andb_prop in H1 as [? _]. congruence.
  - injection Heq as -> Heq.
    apply andb_prop in H1 as [_ H1]. apply andb_prop in H2 as [_ H2].
    by destruct (IH _ _ _ _ _ H1 H2 Ha Hb Heq) as (-> & -> & ->).
Qed.

Lemma forallb_weaken (p q : N → bool) w :
  (∀ c, p c = true → q c = true) → forallb p w = true → forallb q w = true.
Proof.
  intros Hpq. induction w as [|x w IH]; simpl; [done|].
  intros [?%Hpq ?%IH]%andb_prop. by apply andb_true_intro.
Qed.

Lemma plain_space w : forallb is_space w = true → forallb plain w = true.
Proof.
  apply forallb_weaken. intros c [? [? ?]]%space_not_punct.
  unfold plain. by rewrite !(proj2 (N.eqb_neq _ _)).
Qed.

Lemma plain_word w : forallb is_word w = true → forallb plain w = true.
Proof.
  apply forallb_weaken. intros c [? [? ?]]%word_not_punct.
  unfold plain. by rewrite !(proj2 (N.eqb_neq _ _)).
Qed.

Lemma call_text_split c :
  call_text c = call_head c ++ ch_lparen :: call_body c ++ [ch_lbrace].
Proof. unfold call_text, call_head, call_body. by norm_app. Qed.

Lemma is_call_inv c :
  is_call c = true →
  (callee c = str "React.createElement" ∨ callee c = str "e")
  ∧ forallb is_space (ws1 c) = true ∧ forallb is_space (ws2 c) = true
  ∧ match quote c with Some q => is_quote q | None => true end = true
  ∧ cls c ≠ [] ∧ forallb is_word (cls c) = true
  ∧ forallb is_space (ws3 c) = true ∧ forallb is_space (ws4 c) = true.
Proof.
  unfold is_call.
  rewrite !andb_true_iff, orb_true_iff, !bool_decide_eq_true. tauto.
Qed.

Lemma call_head_plain c : is_call c = true → forallb plain (call_head c) = true.
Proof.
  intros (Hw & Hw1 & _)%is_call_inv. unfold call_head.
  rewrite forallb_app, (plain_space _ Hw1), andb_true_r.
  by destruct Hw as [-> | ->].
Qed.

Lemma call_body_plain c : is_call c = true → forallb plain (call_body c) = true.
Proof.
  intros (_ & _ & Hw2 & Hq & _ & Hcl & Hw3 & Hw4)%is_call_inv.
  unfold call_body, call_arg. rewrite !forallb_app.
  rewrite (plain_space _ Hw2), (plain_space _ Hw3), (plain_space _ Hw4).
  cbn. destruct (quote c) as [q|]; [|by rewrite (plain_word _ Hcl)].
  cbn. rewrite forallb_app, (plain_word _ Hcl). cbn.
  apply quote_not_punct in Hq as (? & _ & ?).
  unfold plain. by rewrite !(proj2 (N.eqb_neq q _)).
Qed.

Lemma callee_not_space w s :
  w = str "React.createElement" ∨ w = str "e" →
  forallb is_space (w ++ s) = true → False.
Proof. by intros [-> | ->]. Qed.

Lemma forallb_both_nil (p : N → bool) w :
  forallb p w = true → forallb (λ c, negb (p c)) w = true → w = [].
Proof.
  destruct w as [|x w]; [done|]. simpl.
  intros [-> _]%andb_prop [? _]%andb_prop. done.
Qed.

Lemma call_head_not_suffix c1 c2 A :
  is_call c1 = true → is_call c2 = true → A ≠ [] →
  call_head c1 = A ++ call_head c2 → False.
Proof.
  intros (Hw1 & Hs1 & _)%is_call_inv (Hw2 & Hs2 & _)%is_call_inv HA.
  unfold call_head.
  intros [(k & Hk & Heq)|(k & _ & Heq)]%app_eq_inv.
  2:{ rewrite Heq, forallb_app in Hs1. apply andb_prop in Hs1 as [_ Hs1].
      by eapply callee_not_space. }
  destruct k as [|y k].
  { simpl in Heq. rewrite <-Heq in Hs1. by eapply callee_not_space. }
  destruct A as [|a A]; [done|].
  destruct Hw1 as [Hw1 | Hw1]; rewrite Hw1 in Hk.
  2:{ apply (f_equal length) in Hk. rewrite length_app in Hk. simpl in Hk. lia. }
  change (str "React.createElement")
    with (82 :: str "eact.createElement") in Hk.
  injection Hk as _ Hk.
  assert (forallb (λ c, negb (c =? 82)) (A ++ y :: k) = true) as HR
    by by rewrite <-Hk.
  assert (forallb (λ c, negb (is_space c)) (A ++ y :: k) = true) as HS
    by by rewrite <-Hk.
  rewrite forallb_app in HR, HS. simpl in HR, HS.
  apply andb_prop in HR as [_ [Hy _]%andb_prop].
  apply andb_prop in HS as [_ [_ HS]%andb_prop].
  destruct Hw2 as [Hw2 | Hw2]; rewrite Hw2 in Heq.
  - change (str "React.createElement")
      with (82 :: str "eact.createElement") in Heq.
    injection Heq as <- _. done.
  - change (str "e") with [101] in Heq. injection Heq as <- Heq.
    rewrite Heq, forallb_app in Hs2. apply andb_prop in Hs2 as [Hs2 _].
    rewrite (forallb_both_nil _ _ Hs2 HS) in Hk.
    apply (f_equal last) in Hk. by rewrite last_snoc in Hk.
Qed.

Lemma call_overlap_absurd c1 c2 A B post1 post2 :
  is_call c1 = true → is_call c2 = true → A ≠ [] → B ≠ [] →
  call_text c1 = A ++ B → B ++ post1 = call_text c2 ++ post2 → False.
Proof.
  intros Hc1 Hc2 HA HB H1 H2. rewrite call_text_split in H1, H2.
  pose proof (call_head_plain _ Hc1) as Hh1.
  pose proof (call_head_plain _ Hc2) as Hh2.
  pose proof (call_body_plain _ Hc1) as Hb1.
  apply app_eq_inv in H1 as [(k & Hk & ->)|(k & -> & Hk)].
  - rewrite Hk, forallb_app in Hh1. apply andb_prop in Hh1 as [_ Hh1].
    revert H2. norm_app. intros H2.
    apply (split_unique plain) in H2 as (-> & _); [|done..].
    by apply (call_head_not_suffix c1 c2 A).
  - destruct k as [|x k]; simpl in Hk.
    + subst B. revert H2. norm_app. intros H2.
      apply (split_unique plain []) in H2 as (Hnil & _); [|done..].
      apply is_call_inv in Hc2 as (Hw & _). unfold call_head in Hnil.
      by destruct Hw as [Hw | Hw]; rewrite Hw in Hnil.
    + injection Hk as <- Hk.
      destruct (exists_last HB) as (B' & z & ->).
      rewrite app_assoc in Hk. apply app_inj_tail in Hk as [Hk <-].
      rewrite Hk, forallb_app in Hb1. apply andb_prop in Hb1 as [_ Hb1].
      revert H2. norm_app. intros H2.
      by apply (split_unique plain) in H2 as (_ & ? & _).
Qed.

Lemma occurs_disjoint text i1 c1 i2 c2 :
  occurs_at text i1 c1 → occurs_at text i2 c2 → (i1 < i2)%nat →
  (i1 + length (call_text c1) ≤ i2)%nat.
Proof.
  intros (Hc1 & pre1 & post1 & -> & <-) (Hc2 & pre2 & post2 & Heq & <-) Hlt.
  destruct (decide (length pre1 + length (call_text c1) ≤ length pre2)%nat)
    as [|Hover]; [done|]. exfalso.
  apply app_eq_inv in Heq as [(k & -> & Heq)|(k & -> & Heq)].
  { rewrite length_app in Hlt. lia. }
  rewrite length_app in Hlt, Hover.
  symmetry in Heq. apply app_eq_inv in Heq as [(B & Hk & Heq)|(B & Hk & Heq)].
  - rewrite Hk, !length_app in Hover. lia.
  - rewrite Hk, length_app in Hover.
    apply (call_overlap_absurd c1 c2 k B post1 post2); try done.
    + intros ->. simpl in Hlt. lia.
    + intros ->. rewrite Nat.add_0_r in Hover. lia.
Qed.

Lemma occurs_unique text i c c' :
  occurs_at text i c → occurs_at text i c' → match_of i c = match_of i c'.
Proof.
  intros (Hc & pre & post & -> & <-) (Hc' & pre' & post' & Heq & Hlen).
  apply app_inj_1 in Heq as [<- Heq]; [|done].
  pose proof (call_pattern_complete c post Hc) as Hm.
  rewrite Heq, (call_pattern_complete c' post' Hc') in Hm.
  injection Hm as -> Hg. apply app_inv_tail in Heq.
  unfold match_of. by rewrite Heq, Hg.
Qed.

(** ** What a scanning loop sees *)

Lemma occurs_at_drop text : ∀ li n c,
  (li ≤ length text)%nat →
  occurs_at (drop li text) n c ↔ occurs_at text (li + n) c.
Proof.
  induction text as [|x text IH]; intros [|li] n c Hli; simpl in *;
    try done; try lia.
  rewrite occurs_at_cons. apply IH. lia.
Qed.

Lemma exec_spec text li :
  (li ≤ length text)%nat →
  match exec (mkRegExp call_pattern li) text with
  | (Some m, re') =>
      re' = mkRegExp call_pattern (m_end m)
      ∧ ∃ i c, occurs_at text i c ∧ (li ≤ i)%nat ∧ m = match_of i c
               ∧ ∀ i' c', occurs_at text i' c' → (li ≤ i')%nat → (i ≤ i')%nat
  | (None, re') =>
      re' = mkRegExp call_pattern 0
      ∧ ∀ i c, occurs_at text i c → (i < li)%nat
  end.
Proof.
  intros Hli. unfold exec. cbn [source lastIndex].
  destruct (Nat.ltb_spec (length text) li) as [|_]; [lia|].
  pose proof (search_spec (drop li text) li) as Hs.
  destruct (search call_pattern (drop li text) li) as [m|].
  - destruct Hs as (n & c & Hc & -> & Hleft). split; [done|].
    exists (li + n)%nat, c.
    apply (proj1 (occurs_at_drop _ _ _ _ Hli)) in Hc.
    split; [done|]. split; [lia|]. split; [done|].
    intros i' c' Hc' Hi'.
    replace i' with (li + (i' - li))%nat in Hc' by lia.
    apply (proj2 (occurs_at_drop _ _ _ _ Hli)) in Hc'.
    apply Hleft in Hc' as [? _]. lia.
  - split; [done|]. intros i c Hc.
    destruct (Nat.lt_ge_cases i li) as [|Hge]; [done|].
    replace i with (li + (i - li))%nat in Hc by lia.
    apply (proj2 (occurs_at_drop _ _ _ _ Hli)) in Hc. by apply Hs in Hc.
Qed.

Lemma scan_spec text : ∀ fuel li,
  (li ≤ length text)%nat → (length text - li < fuel)%nat →
  ∃ ms, scan fuel (mkRegExp call_pattern li) text = Some ms
        ∧ lists_from text li ms.
Proof.
  induction fuel as [|fuel IH]; intros li Hli Hfuel; [lia|].
  cbn [scan]. pose proof (exec_spec text li Hli) as He.
  destruct (exec (mkRegExp call_pattern li) text) as [[m|] re'].
  - destruct He as (-> & i & c & Hc & Hi & -> & Hleft).
    pose proof (occurs_at_bound _ _ _ Hc) as Hb.
    pose proof (call_text_length c) as Hpos.
    destruct (IH (m_end (match_of i c))) as (ms & -> & Hall & Hin & Hsort).
    { unfold m_end, match_of; simpl. lia. }
    { unfold m_end, match_of; simpl. lia. }
    exists (match_of i c :: ms). split; [done|].
    unfold m_end, match_of in Hall, Hin; simpl in Hall, Hin.
    split; [|split].
    + constructor; [by eauto|].
      eapply Forall_impl; [exact Hall|]. simpl.
      intros m (i' & c' & ? & ? & ->). exists i', c'.
      split; [done|]. split; [lia|done].
    + intros i' c' Hc' Hi'. pose proof (Hleft _ _ Hc' Hi') as Hle.
      destruct (decide (i' = i)) as [->|Hne].
      * rewrite (occurs_unique _ _ _ _ Hc' Hc). by left.
      * right. apply Hin; [done|].
        apply (occurs_disjoint text i c i' c'); [done..|lia].
    + constructor; [done|].
      eapply Forall_impl; [exact Hall|]. simpl.
      intros m (i' & c' & ? & ? & ->). unfold m_end; simpl. lia.
  - destruct He as (-> & Hnone). exists []. split; [done|].
    split; [done|]. split; [|constructor].
    intros i c Hc Hi. apply Hnone in Hc. lia.
Qed.

Lemma all_matches_scan text :
  scan (S (length text)) (mkRegExp call_pattern 0) text
  = Some (all_matches text)
  ∧ lists_from text 0 (all_matches text).
Proof.
  destruct (scan_spec text (S (length text)) 0%nat) as (ms & Hs & Hms);
    [lia..|].
  unfold all_matches. by rewrite Hs.
Qed.

Lemma exec_loop_scan {A} (body : A → Match → A) text : ∀ fuel re acc,
  exec_loop fuel re text body acc
  = match scan fuel re text with
    | Some ms => Ret (fold_left body ms acc)
    | None => Unfinished
    end.
Proof.
  induction fuel as [|fuel IH]; intros re acc; cbn [exec_loop scan]; [done|].
  destruct (exec re text) as [[m|] re']; [|done].
  rewrite IH. by destruct (scan fuel re' text).
Qed.

Lemma fold_left_no_hit {A} (body : A → Match → A) l : ∀ acc,
  Forall (λ x, ∀ a, body a x = a) l → fold_left body l acc = acc.
Proof.
  induction l as [|x l IH]; intros acc Hl; simpl; [done|].
  inversion_clear Hl as [|? ? Hx Hl']. rewrite Hx. by apply IH.
Qed.

Lemma fold_left_last_hit {A} (body : A → Match → A) l1 m l2 acc v :
  (∀ a, body a m = v) → Forall (λ x, ∀ a, body a x = a) l2 →
  fold_left body (l1 ++ m :: l2) acc = v.
Proof.
  intros Hm Hl2. rewrite fold_left_app. simpl. rewrite Hm.
  by apply fold_left_no_hit.
Qed.

Lemma captured_class_match_of i c :
  is_call c = true → captured_class (match_of i c) = Some (cls c).
Proof.
  intros (_ & _ & _ & _ & Hne & _)%is_call_inv.
  unfold captured_class, match_of, call_groups, or_str. cbn [m_groups].
  destruct (cls c) as [|x w] eqn:Hcls; [done|].
  destruct (quote c) as [q|].
  - by rewrite lookup_insert_eq.
  - by rewrite lookup_insert_ne, lookup_insert_ne, lookup_empty,
      lookup_insert_eq.
Qed.

(** The occurrences after a given one in the list of a scan. *)
Lemma lists_from_split text ms i c :
  lists_from text 0 ms → occurs_at text i c →
  ∃ l1 l2, ms = l1 ++ match_of i c :: l2
    ∧ Forall (λ m, ∃ i' c', occurs_at text i' c' ∧ (i < i')%nat
                            ∧ m = match_of i' c') l2.
Proof.
  intros (Hall & Hin & Hsort) Hc.
  destruct (list_elem_of_split _ _ (Hin i c Hc (Nat.le_0_l _)))
    as (l1 & l2 & ->).
  exists l1, l2. split; [done|].
  apply StronglySorted_app_1_r, StronglySorted_inv in Hsort as [_ Hsort].
  apply Forall_app in Hall as [_ Hall].
  apply Forall_cons in Hall as [_ Hall].
  apply Forall_forall. intros m Hm.
  rewrite Forall_forall in Hall, Hsort.
  destruct (Hall m Hm) as (i' & c' & Hc' & _ & ->). exists i', c'.
  split; [done|]. split; [|done].
  specialize (Hsort _ Hm). unfold m_end in Hsort; simpl in Hsort.
  pose proof (call_text_length c). lia.
Qed.

(** ** The call-site resolver *)

Lemma getEnclosingClassName_fold text :
  getEnclosingClassName text
  = Ret (fold_left
      (λ lastClassName m,
         let className := captured_class m in
         if truthy_str className then className else lastClassName)
      (all_matches text) None).
Proof.
  unfold getEnclosingClassName. rewrite exec_loop_scan.
  by rewrite (proj1 (all_matches_scan text)).
Qed.

Lemma resolver_none text :
  (∀ i c, ¬ occurs_at text i c) → getEnclosingClassName text = Ret None.
Proof.
  intros Hnone. rewrite getEnclosingClassName_fold.
  destruct (all_matches_scan text) as (_ & Hall & _).
  destruct (all_matches text) as [|m ms]; [done|].
  apply Forall_cons in Hall as [(i & c & Hc & _) _]. by apply Hnone in Hc.
Qed.

Lemma resolver_last text i c :
  occurs_at text i c →
  (∀ i' c', occurs_at text i' c' → (i' ≤ i)%nat) →
  getEnclosingClassName text = Ret (Some (cls c)).
Proof.
  intros Hc Hlast. rewrite getEnclosingClassName_fold.
  destruct (all_matches_scan text) as (_ & Hms).
  destruct (lists_from_split _ _ _ _ Hms Hc) as (l1 & l2 & -> & Hl2).
  f_equal. apply fold_left_last_hit.
  - intros a. cbn zeta. rewrite captured_class_match_of by apply Hc.
    destruct Hc as [(_ & _ & _ & _ & Hne & _)%is_call_inv _].
    by destruct (cls c).
  - eapply Forall_impl; [exact Hl2|]. simpl.
    intros m (i' & c' & Hc' & Hlt & _). apply Hlast in Hc'. lia.
Qed.

(** Nothing starts after a call site the text ends with. *)
Lemma occurs_at_end pre c :
  is_call c = true →
  occurs_at (pre ++ call_text c) (length pre) c
  ∧ ∀ i' c', occurs_at (pre ++ call_text c) i' c' → (i' ≤ length pre)%nat.
Proof.
  intros Hc.
  assert (occurs_at (pre ++ call_text c) (length pre) c) as Hocc.
  { split; [done|]. exists pre, []. by rewrite app_nil_r. }
  split; [done|]. intros i' c' Hc'.
  destruct (Nat.le_gt_cases i' (length pre)) as [|Hgt]; [done|].
  pose proof (occurs_disjoint _ _ _ _ _ Hocc Hc' Hgt).
  pose proof (occurs_at_bound _ _ _ Hc') as Hb. rewrite length_app in Hb.
  pose proof (call_text_length c'). lia.
Qed.

Lemma resolver_open_call pre c :
  is_call c = true →
  getEnclosingClassName (pre ++ call_text c) = Ret (Some (cls c)).
Proof.
  intros Hc. destruct (occurs_at_end pre c Hc) as [Hocc Hlast].
  by apply (resolver_last _ _ _ Hocc).
Qed.

(** ** The containment checker *)

Lemma last_index_from_snoc c s : ∀ i acc,
  last_index_from c (s ++ [c]) i acc = (i + Z.of_nat (length s))%Z.
Proof.
  induction s as [|x s IH]; intros i acc; simpl.
  - rewrite N.eqb_refl. lia.
  - rewrite IH. lia.
Qed.

Lemma lastIndexOf_call_text c :
  lastIndexOf (call_text c) ch_lbrace
  = (Z.of_nat (length (call_text c)) - 1)%Z.
Proof.
  rewrite call_text_split. unfold lastIndexOf.
  rewrite app_comm_cons, app_assoc, last_index_from_snoc.
  rewrite (length_app _ [ch_lbrace]). simpl. lia.
Qed.

Lemma findPropsStart_fold text className :
  findPropsStart text className
  = Ret (fold_left
      (λ propsStartIndex m,
         let matchedClassName := captured_class m in
         if bool_decide (matchedClassName ≠ Some className)
         then propsStartIndex
         else
           let braceIndexInMatch := lastIndexOf (m_text m) ch_lbrace in
           (Z.of_nat (m_index m) + braceIndexInMatch)%Z)
      (all_matches text) (-1)%Z).
Proof.
  unfold findPropsStart. rewrite exec_loop_scan.
  by rewrite (proj1 (all_matches_scan text)).
Qed.

Lemma findPropsStart_none text className :
  (∀ i c, occurs_at text i c → cls c ≠ className) →
  findPropsStart text className = Ret (-1)%Z.
Proof.
  intros Hnone. rewrite findPropsStart_fold. f_equal.
  apply fold_left_no_hit.
  destruct (all_matches_scan text) as (_ & Hall & _).
  eapply Forall_impl; [exact Hall|]. simpl.
  intros m (i & c & Hc & _ & ->) a.
  rewrite captured_class_match_of by apply Hc.
  rewrite bool_decide_eq_true_2; [done|].
  intros [= ?]. by apply (Hnone i c).
Qed.

Lemma findPropsStart_last text className i c :
  occurs_at text i c → cls c = className →
  (∀ i' c', occurs_at text i' c' → cls c' = className → (i' ≤ i)%nat) →
  findPropsStart text className = Ret (Z.of_nat (brace_index i c)).
Proof.
  intros Hc Hcls Hlast. rewrite findPropsStart_fold.
  destruct (all_matches_scan text) as (_ & Hms).
  destruct (lists_from_split _ _ _ _ Hms Hc) as (l1 & l2 & -> & Hl2).
  f_equal. apply fold_left_last_hit.
  - intros a. cbn zeta. rewrite captured_class_match_of by apply Hc.
    rewrite bool_decide_eq_false_2 by (intros Hne; apply Hne; by f_equal).
    cbn [match_of m_text m_index]. rewrite lastIndexOf_call_text.
    unfold brace_index. pose proof (call_text_length c). lia.
  - eapply Forall_impl; [exact Hl2|]. simpl.
    intros m (i' & c' & Hc' & Hlt & ->) a.
    rewrite captured_class_match_of by apply Hc'.
    rewrite bool_decide_eq_true_2; [done|].
    intros [= Heq]. pose proof (Hlast _ _ Hc' Heq). lia.
Qed.

Lemma brace_index_lookup text i c :
  occurs_at text i c →
  ∃ post, drop (brace_index i c) text = ch_lbrace :: post
          ∧ (brace_index i c < length text)%nat.
Proof.
  intros (_ & pre & post & -> & <-). exists post. unfold brace_index.
  pose proof (call_text_length c) as Hpos.
  rewrite call_text_split in *. revert Hpos.
  rewrite !length_app. cbn [length]. rewrite !length_app. cbn [length].
  intros _. split; [|lia].
  rewrite drop_app_ge by lia.
  rewrite app_comm_cons, app_assoc, <-app_assoc.
  rewrite drop_app_ge by (rewrite length_app; simpl; lia).
  rewrite length_app. cbn [length].
  replace (_ - _ - _)%nat with 0%nat by lia. done.
Qed.

Lemma brace_depth_cons x s n :
  brace_depth (take (S n) (x :: s))
  = (brace_delta x + brace_depth (take n s))%Z.
Proof. done. Qed.

Lemma brace_walk_spec s : ∀ i start d,
  (start < i)%Z → (0 < d)%Z →
  brace_walk s i start d = true
  ↔ ∃ n, (n < length s)%nat ∧ (d + brace_depth (take (S n) s) = 0)%Z.
Proof.
  induction s as [|ch s IH]; intros i start d Hi Hd; cbn [brace_walk].
  { split; [done|]. intros (n & Hn & _). simpl in Hn. lia. }
  assert (∀ d', (0 < d')%Z → (d' = d + brace_delta ch)%Z →
    brace_walk s (i + 1) start d' = true
    ↔ ∃ n, (n < length (ch :: s))%nat
           ∧ (d + brace_depth (take (S n) (ch :: s)) = 0)%Z) as Hstep.
  { intros d' Hd' ->. rewrite IH by lia. split.
    - intros (n & Hn & Hz). exists (S n).
      rewrite brace_depth_cons. cbn [length]. split; lia.
    - intros ([|n] & Hn & Hz); rewrite brace_depth_cons in Hz.
      + rewrite take_0 in Hz. cbn [brace_depth foldr] in Hz. lia.
      + exists n. cbn [length] in Hn. split; lia. }
  unfold brace_delta in Hstep.
  destruct (N.eqb_spec ch ch_lbrace) as [->|Hl].
  { apply Hstep; lia. }
  destruct (N.eqb_spec ch ch_rbrace) as [->|Hr].
  2:{ apply Hstep; lia. }
  destruct (Z.eqb_spec (d - 1) 0) as [Hz|Hz].
  - rewrite (proj2 (Z.ltb_lt _ _) Hi). cbn [andb]. split; [|done].
    intros _. exists 0%nat. simpl. unfold brace_delta. simpl. split; lia.
  - cbn [andb]. apply Hstep; lia.
Qed.

Lemma isInsidePropsObject_last text i c :
  occurs_at text i c →
  (∀ i' c', occurs_at text i' c' → cls c' = cls c → (i' ≤ i)%nat) →
  ∃ inside, isInsidePropsObject text (cls c) = Ret inside
    ∧ (inside = true
       ↔ ∀ j, (brace_index i c < j < length text)%nat →
              depth_at text (brace_index i c) j ≠ 0%Z).
Proof.
  intros Hc Hlast. unfold isInsidePropsObject.
  rewrite (findPropsStart_last _ _ _ _ Hc eq_refl Hlast).
  cbn [mbind result_bind].
  destruct (Z.eqb_spec (Z.of_nat (brace_index i c)) (-1)) as [|_]; [lia|].
  rewrite Nat2Z.id.
  destruct (brace_index_lookup _ _ _ Hc) as (post & Hdrop & Hlt).
  set (start := brace_index i c) in *.
  assert (length text = (start + S (length post))%nat) as Hlen.
  { apply (f_equal length) in Hdrop. rewrite length_drop in Hdrop.
    simpl in Hdrop. lia. }
  rewrite Hdrop. cbn [brace_walk]. rewrite N.eqb_refl.
  eexists; split; [done|]. rewrite negb_true_iff, <-not_true_iff_false.
  rewrite brace_walk_spec by lia.
  unfold depth_at. rewrite Hdrop. split.
  - intros Hno j Hj Hz. apply Hno. exists (j - start - 1)%nat.
    split; [lia|]. revert Hz.
    replace (S j - start)%nat with (S (S (j - start - 1)))%nat by lia.
    rewrite brace_depth_cons. unfold brace_delta at 1.
    rewrite N.eqb_refl. lia.
  - intros Hall (n & Hn & Hz). apply (Hall (start + S n)%nat); [lia|].
    replace (S (start + S n) - start)%nat with (S (S n)) by lia.
    rewrite brace_depth_cons. unfold brace_delta at 1.
    rewrite N.eqb_refl. lia.
Qed.

Lemma isInsidePropsObject_none text className :
  (∀ i c, occurs_at text i c → cls c ≠ className) →
  isInsidePropsObject text className = Ret false.
Proof.
  intros Hnone. unfold isInsidePropsObject.
  by rewrite (findPropsStart_none _ _ Hnone).
Qed.

(** ** The last occurrence *)

Lemma last_occurrence text :
  (∀ i c, ¬ occurs_at text i c)
  ∨ ∃ i c, occurs_at text i c
           ∧ ∀ i' c', occurs_at text i' c' → (i' ≤ i)%nat.
Proof.
  destruct (all_matches_scan text) as (_ & Hall & Hin & Hsort).
  destruct (all_matches text) as [|m0 ms0] eqn:Hms.
  { left. intros i c Hc. specialize (Hin i c Hc (Nat.le_0_l _)).
    by apply not_elem_of_nil in Hin. }
  right. clear Hms.
  destruct (exists_last (l := m0 :: ms0)) as (l & m & Hl); [done|].
  rewrite Hl in *. clear Hl.
  apply Forall_app in Hall as [_ Hall].
  apply Forall_cons in Hall as [(i & c & Hc & _ & ->) _].
  exists i, c. split; [done|]. intros i' c' Hc'.
  specialize (Hin i' c' Hc' (Nat.le_0_l _)).
  apply elem_of_app in Hin as [Hin|Hin].
  - pose proof (StronglySorted_app_1_elem_of _ _ _ _ _ Hsort Hin
      (list_elem_of_here _ _)) as Hle.
    unfold m_end in Hle; simpl in Hle. lia.
  - apply list_elem_of_singleton in Hin. by injection Hin as ->.
Qed.

Lemma last_occurrence_by_scan text i c :
  is_call c = true → last (all_matches text) = Some (match_of i c) →
  occurs_at text i c ∧ ∀ i' c', occurs_at text i' c' → (i' ≤ i)%nat.
Proof.
  intros Hcall [l Hl]%last_Some.
  destruct (all_matches_scan text) as (_ & Hall & Hin & Hsort).
  rewrite Hl in *. apply Forall_app in Hall as [_ Hall].
  apply Forall_cons in Hall as [(i0 & c0 & Hc0 & _ & Heq) _]. split.
  - injection Heq as -> Htext _. split; [done|].
    destruct Hc0 as (_ & pre & post & -> & <-). exists pre, post.
    by rewrite Htext.
  - intros i' c' Hc'. specialize (Hin i' c' Hc' (Nat.le_0_l _)).
    apply elem_of_app in Hin as [Hin|Hin].
    + pose proof (StronglySorted_app_1_elem_of _ _ _ _ _ Hsort Hin
        (list_elem_of_here _ _)) as Hle.
      unfold m_end in Hle; simpl in Hle. lia.
    + apply list_elem_of_singleton in Hin. by injection Hin as ->.
Qed.

Lemma getEnclosingClassName_cases text :
  (getEnclosingClassName text = Ret None ∧ ∀ i c, ¬ occurs_at text i c)
  ∨ ∃ i c, getEnclosingClassName text = Ret (Some (cls c))
           ∧ occurs_at text i c
           ∧ ∀ i' c', occurs_at text i' c' → (i' ≤ i)%nat.
Proof.
  destruct (last_occurrence text) as [Hnone|(i & c & Hc & Hlast)].
  - left. split; [by apply resolver_none|done].
  - right. exists i, c. split; [by eapply resolver_last|done].
Qed.

(** ** The property resolver *)

Lemma default_class_not_inherited className d :
  defaultPropsMap !! className = Some d → object_prototype !! className = None.
Proof.
  unfold defaultPropsMap. cbn [list_to_map foldr uncurry].
  destruct (decide (className = str "TextLabel")) as [->|?]; [done|].
  destruct (decide (className = str "Frame")) as [->|?]; [done|].
  destruct (decide (className = str "ImageLabel")) as [->|?]; [done|].
  by rewrite !lookup_insert_ne, lookup_empty.
Qed.

(** C1, as amended. The user map ([defaultPropsMap] itself when the
    setting is absent) wins whenever it has the class as a key, also with
    an empty list; without that key the built-in default list of the class
    is used; and a class that is in neither map and does not name a member
    inherited from [Object.prototype] has no properties. *)
Theorem getPropsForClass_precedence (config : settings) (className : jstring) :
  (∀ items, default defaultPropsMap config !! className = Some items →
     getPropsForClass config className = VArray items)
  ∧ (∀ d, default defaultPropsMap config !! className = None →
       defaultPropsMap !! className = Some d →
       getPropsForClass config className = VArray d)
  ∧ (default defaultPropsMap config !! className = None →
     defaultPropsMap !! className = None →
     object_prototype !! className = None →
     getPropsForClass config className = VUndefined).
Proof.
  unfold getPropsForClass, get, or_value. split; [|split].
  - by intros items ->.
  - intros d -> Hd.
    by rewrite (default_class_not_inherited _ _ Hd), Hd.
  - by intros -> -> ->.
Qed.

Lemma getPropsForClass_precedence_witness :
  getPropsForClass (Some {[ str "Frame" := [str "Size"] ]}) (str "Frame")
  = VArray [str "Size"]
  ∧ getPropsForClass (Some ∅) (str "Frame")
    = VArray (default [] (defaultPropsMap !! str "Frame"))
  ∧ getPropsForClass (Some ∅) (str "Foo") = VUndefined.
Proof.
  split; [|split].
  - apply (proj1 (getPropsForClass_precedence _ _)). reflexivity.
  - apply (proj1 (proj2 (getPropsForClass_precedence _ _))); reflexivity.
  - apply (proj2 (proj2 (getPropsForClass_precedence _ _))); reflexivity.
Defined.

(** C1 as stated fails: an empty user entry for a class that has a
    built-in default is returned as it is, not replaced by the default. *)
Lemma getPropsForClass_empty_entry_counterexample :
  ({[ str "Frame" := [] ]} : gmap jstring (list jstring)) !! str "Frame"
  = Some []
  ∧ is_Some (defaultPropsMap !! str "Frame")
  ∧ getPropsForClass (Some {[ str "Frame" := [] ]}) (str "Frame") = VArray []
  ∧ getPropsForClass (Some {[ str "Frame" := [] ]}) (str "Frame")
    ≠ VArray (default [] (defaultPropsMap !! str "Frame")).
Proof.
  split; [reflexivity|]. split; [by eexists|]. split; [reflexivity|].
  discriminate.
Qed.

(** ** The window extractor *)

Lemma window_short document position :
  (length (take position document) ≤ maxLookback)%nat →
  window document position = take position document.
Proof.
  intros Hle. unfold window, getText.
  by destruct (Nat.ltb_spec maxLookback (length (take position document)));
    [lia|].
Qed.

Lemma window_long document position :
  (maxLookback < length (take position document))%nat →
  window document position
  = drop (length (take position document) - maxLookback)
      (take position document).
Proof.
  intros Hlt. unfold window, getText, slice.
  by destruct (Nat.ltb_spec maxLookback (length (take position document)));
    [|lia].
Qed.

Lemma window_trailing far near :
  length near = maxLookback →
  window (far ++ near) (length (far ++ near)) = near.
Proof.
  intros Hlen. destruct far as [|x far].
  - rewrite window_short; simpl; rewrite firstn_all; [done|lia].
  - rewrite window_long; rewrite firstn_all.
    + rewrite length_app, Hlen, Nat.add_sub. by rewrite drop_app_length.
    + rewrite length_app, Hlen. simpl. lia.
Qed.

(** ** The pipeline on a window *)

Lemma complete_no_call config text :
  (∀ i c, ¬ occurs_at text i c) → complete config text = Ret None.
Proof.
  intros Hnone. unfold complete. by rewrite (resolver_none _ Hnone).
Qed.

Lemma complete_last config text i c :
  occurs_at text i c →
  (∀ i' c', occurs_at text i' c' → (i' ≤ i)%nat) →
  ∃ inside,
    isInsidePropsObject text (cls c) = Ret inside
    ∧ (inside = true
       ↔ ∀ j, (brace_index i c < j < length text)%nat →
              depth_at text (brace_index i c) j ≠ 0%Z)
    ∧ complete config text
      = let props := getPropsForClass config (cls c) in
        if negb (truthy props) || length_is_zero props then Ret None
        else if inside
             then items ← buildItemsForProps (cls c) props; Ret (Some items)
             else Ret None.
Proof.
  intros Hc Hlast.
  destruct (isInsidePropsObject_last text i c Hc) as (inside & Hin & Hiff).
  { intros i' c' Hc' _. by apply (Hlast i' c'). }
  exists inside. split; [done|]. split; [done|].
  unfold complete. rewrite (resolver_last _ _ _ Hc Hlast).
  cbn [mbind result_bind].
  destruct Hc as [(_ & _ & _ & _ & Hne & _)%is_call_inv _].
  destruct (cls c) as [|x w] eqn:Hcls; [done|]. cbn zeta.
  destruct (negb _ || _); [done|]. rewrite Hin. cbn [mbind result_bind].
  by destruct inside.
Qed.

(** C4. The window is the text before the cursor when that has at most
    2000 characters and its last 2000 characters otherwise; so what lies
    before the last 2000 characters has no influence on the result, and a
    call that ends before them is not detected. *)
Theorem window_lookback (document : jstring) (position : nat) :
  ((length (take position document) ≤ 2000)%nat →
     window document position = take position document)
  ∧ ((2000 < length (take position document))%nat →
     window document position
     = drop (length (take position document) - 2000) (take position document)
     ∧ length (window document position) = 2000%nat)
  ∧ (∀ config far near, length near = 2000%nat →
       provideCompletionItems config (far ++ near) (length (far ++ near))
       = provideCompletionItems config near (length near))
  ∧ (∀ config c near, is_call c = true → length near = 2000%nat →
       (∀ i c', ¬ occurs_at near i c') →
       provideCompletionItems config (call_text c ++ near)
         (length (call_text c ++ near)) = Ret None).
Proof.
  split; [apply window_short|]. split; [|split].
  - intros Hlt. rewrite (window_long _ _ Hlt). split; [done|].
    rewrite length_drop. unfold maxLookback in *. lia.
  - intros config far near Hlen. unfold provideCompletionItems.
    rewrite (window_trailing far near Hlen).
    by rewrite (window_trailing [] near Hlen : window near (length near) = _).
  - intros config c near _ Hlen Hnone. unfold provideCompletionItems.
    rewrite (window_trailing _ near Hlen). by apply complete_no_call.
Qed.

Lemma no_occurrence_by_scan text :
  all_matches text = [] → ∀ i c, ¬ occurs_at text i c.
Proof.
  intros Hnil i c Hc.
  destruct (all_matches_scan text) as (_ & _ & Hin & _).
  specialize (Hin i c Hc (Nat.le_0_l _)). rewrite Hnil in Hin.
  by apply not_elem_of_nil in Hin.
Qed.

Lemma window_lookback_witness :
  window (str "e(Frame, {") 10 = str "e(Frame, {"
  ∧ length (window (repeat 32 2001) 2001) = 2000%nat
  ∧ provideCompletionItems None (str "e(Frame, {" ++ repeat 32 2000)
      (length (str "e(Frame, {" ++ repeat 32 2000))
    = provideCompletionItems None (repeat 32 2000) (length (repeat 32 2000))
  ∧ provideCompletionItems None
      (call_text (mkCall (str "e") [] [] None (str "Frame") [] [32])
       ++ repeat 32 2000)
      (length (call_text (mkCall (str "e") [] [] None (str "Frame") [] [32])
               ++ repeat 32 2000))
    = Ret None.
Proof.
  split; [|split; [|split]].
  - refine (proj1 (window_lookback (str "e(Frame, {") 10) _).
    vm_compute. lia.
  - refine (proj2 (proj1 (proj2 (window_lookback (repeat 32 2001) 2001)) _)).
    vm_compute. lia.
  - apply (proj1 (proj2 (proj2 (window_lookback [] 0)))). reflexivity.
  - apply (proj2 (proj2 (proj2 (window_lookback [] 0)))).
    + reflexivity.
    + reflexivity.
    + apply no_occurrence_by_scan. vm_compute. reflexivity.
Defined.

(** ** The completion builder *)

(** C5. One candidate per property name, in the same order: the label is
    the name, the insertion template is the name, then [ = ], then the
    cursor marker [$0], and the detail text starts with the class name.
    With the cursor inside the still open props object of the last call
    and a non-empty list for its class, these candidates are what the
    pipeline returns. *)
Theorem buildItemsForProps_items (className : jstring) (props : list jstring) :
  (∃ items,
     buildItemsForProps className (VArray props) = Ret items
     ∧ length items = length props
     ∧ ∀ i name, props !! i = Some name →
         ∃ item, items !! i = Some item
           ∧ label item = name
           ∧ insertText item = name ++ str " = " ++ str "$0"
           ∧ detail item = className ++ str " property (React Luau helper)"
           ∧ kind item = Property)
  ∧ (∀ config text i c,
       occurs_at text i c →
       (∀ i' c', occurs_at text i' c' → (i' ≤ i)%nat) →
       cls c = className →
       getPropsForClass config className = VArray props → props ≠ [] →
       (∀ j, (brace_index i c < j < length text)%nat →
             depth_at text (brace_index i c) j ≠ 0%Z) →
       complete config text = Ret (Some (map (buildItem className) props))).
Proof.
  split.
  - eexists. split; [done|]. split; [by rewrite length_map|].
    intros i name Hi. exists (buildItem className name).
    split; [|done]. change (map ?f ?l) with (f <$> l).
    by rewrite list_lookup_fmap, Hi.
  - intros config text i c Hc Hlast <- Hprops Hne Hopen.
    destruct (complete_last config text i c Hc Hlast)
      as (inside & _ & Hiff & ->).
    rewrite (proj2 Hiff Hopen), Hprops. cbn.
    by destruct props.
Qed.

Lemma buildItemsForProps_items_witness :
  complete (Some {[ str "Frame" := [str "Size"; str "Visible"] ]})
    (str "local f = e(Frame, { ")
  = Ret (Some [ mkItem (str "Size") Property (str "Size = $0")
                  (str "Frame property (React Luau helper)");
                mkItem (str "Visible") Property (str "Visible = $0")
                  (str "Frame property (React Luau helper)") ]).
Proof.
  destruct (last_occurrence_by_scan (str "local f = e(Frame, { ") 10
    (mkCall (str "e") [] [] None (str "Frame") [] [32])
    eq_refl eq_refl) as [Hc Hlast].
  refine (proj2 (buildItemsForProps_items (str "Frame")
    [str "Size"; str "Visible"])
    (Some {[ str "Frame" := [str "Size"; str "Visible"] ]}) _ _ _
    Hc Hlast eq_refl _ _ _).
  - reflexivity.
  - discriminate.
  - unfold brace_index. simpl. intros j Hj.
    do 21 (destruct j as [|j]; [first [lia | by vm_compute]|]).
    lia.
Defined.

(** ** No state between queries *)

Lemma heap_exec_loop_sim {A} (body : A → Match → A) text l :
  ∀ fuel acc h re,
  Heap.regexps h !! l = Some re →
  ∃ re',
    Heap.exec_loop fuel l text body acc h
    = (exec_loop fuel re text body acc,
       Heap.mkHeap (<[l := re']> (Heap.regexps h)) (Heap.defaults h))
    ∧ (∀ a, exec_loop fuel re text body acc = Ret a →
         re' = mkRegExp (source re) 0).
Proof.
  induction fuel as [|fuel IH]; intros acc [res defs] re Hl;
    cbn [Heap.regexps Heap.defaults] in *.
  { exists re. split; [|done]. cbn. unfold Heap.lift.
    by rewrite list_insert_id. }
  cbn [Heap.exec_loop exec_loop]. unfold mbind, Heap.M_bind, Heap.exec.
  cbn [Heap.regexps Heap.defaults]. rewrite Hl.
  assert (source (exec re text).2 = source re
          ∧ ((exec re text).1 = None → (exec re text).2 = mkRegExp (source re) 0))
    as [Hsrc Hnone].
  { unfold exec. destruct (_ <? _)%nat; [done|].
    by destruct (search _ _ _). }
  destruct (exec re text) as [[m|] re1]; cbn [fst snd] in *.
  - destruct (IH (body acc m) (Heap.mkHeap (<[l:=re1]> res) defs) re1)
      as (re' & -> & Hre').
    { cbn. apply list_lookup_insert_eq. by apply lookup_lt_Some in Hl. }
    exists re'. cbn [Heap.regexps Heap.defaults].
    rewrite list_insert_insert_eq. split; [done|].
    intros a Ha. rewrite <-Hsrc. by apply (Hre' a).
  - exists re1. split; [done|]. intros _ _. by apply Hnone.
Qed.

(** A scanning loop on a pattern of its own: the result is that of the
    loop on a fresh RegExp, and the heap gains that one object. *)
Lemma heap_fresh_loop_sim {A} (body : A → Match → A) text acc h :
  ∃ re',
    (pattern ← Heap.new_regexp call_pattern;
     Heap.exec_loop (S (length text)) pattern text body acc) h
    = (exec_loop (S (length text)) (mkRegExp call_pattern 0) text body acc,
       Heap.mkHeap (Heap.regexps h ++ [re']) (Heap.defaults h))
    ∧ (∀ a, exec_loop (S (length text)) (mkRegExp call_pattern 0) text
              body acc = Ret a → re' = mkRegExp call_pattern 0).
Proof.
  destruct h as [res defs].
  destruct (heap_exec_loop_sim body text (length res) (S (length text)) acc
    (Heap.mkHeap (res ++ [mkRegExp call_pattern 0]) defs)
    (mkRegExp call_pattern 0)) as (re' & Hsim & Hre').
  { cbn. by rewrite lookup_app_r, Nat.sub_diag by lia. }
  exists re'. split; [|done].
  unfold mbind at 1. unfold Heap.M_bind at 1. unfold Heap.new_regexp.
  cbn [Heap.regexps Heap.defaults] in *. rewrite Hsim. f_equal. f_equal.
  rewrite insert_app_r_alt, Nat.sub_diag by lia. done.
Qed.

Lemma heap_getEnclosingClassName_sim text h :
  Heap.getEnclosingClassName text h
  = (getEnclosingClassName text,
     Heap.mkHeap (Heap.regexps h ++ [mkRegExp call_pattern 0])
       (Heap.defaults h)).
Proof.
  destruct (heap_fresh_loop_sim
    (λ lastClassName m,
       let className := captured_class m in
       if truthy_str className then className else lastClassName)
    text None h) as (re' & Hsim & Hre').
  rewrite (Hre' _ (getEnclosingClassName_fold text)) in Hsim. exact Hsim.
Qed.

Lemma heap_findPropsStart_sim text className h :
  Heap.findPropsStart text className h
  = (findPropsStart text className,
     Heap.mkHeap (Heap.regexps h ++ [mkRegExp call_pattern 0])
       (Heap.defaults h)).
Proof.
  destruct (heap_fresh_loop_sim
    (λ propsStartIndex m,
       let matchedClassName := captured_class m in
       if bool_decide (matchedClassName ≠ Some className) then propsStartIndex
       else
         let braceIndexInMatch := lastIndexOf (m_text m) ch_lbrace in
         (Z.of_nat (m_index m) + braceIndexInMatch)%Z)
    text (-1)%Z h) as (re' & Hsim & Hre').
  rewrite (Hre' _ (findPropsStart_fold text className)) in Hsim. exact Hsim.
Qed.

Lemma heap_isInsidePropsObject_sim text className h :
  Heap.isInsidePropsObject text className h
  = (isInsidePropsObject text className,
     Heap.mkHeap (Heap.regexps h ++ [mkRegExp call_pattern 0])
       (Heap.defaults h)).
Proof.
  unfold Heap.isInsidePropsObject, isInsidePropsObject.
  unfold mbind at 1. unfold Heap.M_bind at 1.
  rewrite heap_findPropsStart_sim, findPropsStart_fold.
  cbn [mbind result_bind]. by destruct (_ =? _)%Z.
Qed.

(** A query answers as the pure pipeline does as long as the object
    [defaultPropsMap] has its initial contents; it leaves that object and
    every RegExp object it found as they were, and the one or two RegExp
    objects it creates end with [lastIndex] 0. *)
Lemma heap_provideCompletionItems_sim config document position h :
  Heap.defaults h = defaultPropsMap →
  ∃ n, Heap.provideCompletionItems config document position h
       = (provideCompletionItems config document position,
          Heap.mkHeap
            (Heap.regexps h ++ replicate n (mkRegExp call_pattern 0))
            (Heap.defaults h)).
Proof.
  intros Hdef.
  unfold Heap.provideCompletionItems, provideCompletionItems,
    Heap.complete, complete.
  set (text := window document position).
  unfold mbind at 1. unfold Heap.M_bind at 1.
  rewrite heap_getEnclosingClassName_sim.
  destruct (getEnclosingClassName text) as [[[|x cn]|]| |];
    cbn [mbind result_bind]; try (by exists 1%nat).
  unfold mbind at 1. unfold Heap.M_bind at 1.
  unfold Heap.getPropsForClass at 1. unfold mbind at 1.
  unfold Heap.M_bind at 1. unfold Heap.read_defaults.
  cbn [Heap.defaults Heap.regexps mret Heap.M_ret]. rewrite Hdef.
  change (or_value _ _) with (getPropsForClass config (x :: cn)).
  destruct (negb _ || _); [by exists 1%nat|].
  unfold mbind at 1. unfold Heap.M_bind at 1.
  rewrite heap_isInsidePropsObject_sim.
  cbn [Heap.defaults Heap.regexps].
  destruct (isInsidePropsObject text (x :: cn)) as [[|]| |];
    cbn [mbind result_bind negb]; rewrite <-?app_assoc;
    try (by exists 2%nat).
  unfold mbind, Heap.M_bind, Heap.lift.
  destruct (buildItemsForProps (x :: cn) (getPropsForClass config (x :: cn)));
    by exists 2%nat.
Qed.

Lemma heap_after_defaults qs : ∀ h,
  Heap.defaults h = defaultPropsMap →
  Heap.defaults (Heap.after_from h qs) = defaultPropsMap.
Proof.
  induction qs as [|q qs IH]; intros h Hdef; [done|].
  cbn [Heap.after_from fold_left]. apply IH. unfold Heap.run.
  destruct (heap_provideCompletionItems_sim (Heap.q_config q)
    (Heap.q_document q) (Heap.q_position q) h Hdef) as (n & ->).
  done.
Qed.

(** C10. Every call of a scanning method creates its RegExp object and
    [exec] writes its [lastIndex]; [defaultPropsMap] is an object of the
    module. With these objects in a heap that is handed from query to
    query: whatever queries were answered before, a query's outcome is the
    same, namely that of the pure pipeline on its setting, document and
    position; two invocations with the same inputs so give the same
    candidates. The queries leave [defaultPropsMap] as it was loaded, and a
    query changes no RegExp object that existed before it. *)
Theorem provideCompletionItems_no_hidden_state
    (earlier1 earlier2 : list Heap.query)
    (config : settings) (document : jstring) (position : nat) :
  fst (Heap.provideCompletionItems config document position
         (Heap.after earlier1))
  = fst (Heap.provideCompletionItems config document position
           (Heap.after earlier2))
  ∧ fst (Heap.provideCompletionItems config document position
           (Heap.after earlier1))
    = provideCompletionItems config document position
  ∧ Heap.defaults (Heap.after earlier1) = defaultPropsMap
  ∧ ∃ n, snd (Heap.provideCompletionItems config document position
                (Heap.after earlier1))
         = Heap.mkHeap
             (Heap.regexps (Heap.after earlier1)
              ++ replicate n (mkRegExp call_pattern 0))
             defaultPropsMap.
Proof.
  pose proof (heap_after_defaults earlier1 Heap.initial eq_refl) as Hd1.
  pose proof (heap_after_defaults earlier2 Heap.initial eq_refl) as Hd2.
  fold (Heap.after earlier1) in Hd1. fold (Heap.after earlier2) in Hd2.
  destruct (heap_provideCompletionItems_sim config document position
    _ Hd1) as (n1 & H1).
  destruct (heap_provideCompletionItems_sim config document position
    _ Hd2) as (n2 & H2).
  rewrite H1, H2, Hd1. repeat split. by exists n1.
Qed.

(** ** Claims about the call-site resolver *)

Lemma resolver_fold_last (ms : list Match) :
  Forall (λ m, truthy_str (captured_class m) = true) ms →
  fold_left
    (λ lastClassName m,
       let className := captured_class m in
       if truthy_str className then className else lastClassName)
    ms None
  = last ms ≫= captured_class.
Proof.
  intros Hall. destruct ms as [|m0 ms0]; [done|].
  destruct (exists_last (l := m0 :: ms0)) as (l & m & Hl); [done|].
  rewrite Hl in *. rewrite last_snoc. cbn [mbind option_bind].
  apply fold_left_last_hit; [|done]. intros a. cbn zeta.
  apply Forall_app in Hall as [_ Hall].
  apply Forall_cons in Hall as [Hm _]. by rewrite Hm.
Qed.

(** C2. The scanning loop sees exactly the occurrences of the call
    pattern in the whole window, in textual order, and the resolver returns
    the class name of the last of them: the one that starts at the greatest
    index. With no occurrence it returns [undefined], and with a second call
    opened after a first one it returns the second call's class. *)
Theorem getEnclosingClassName_last_match (text : jstring) :
  (∃ ms, scan (S (length text)) (mkRegExp call_pattern 0) text = Some ms
         ∧ (∀ m, m ∈ ms ↔ ∃ i c, occurs_at text i c ∧ m = match_of i c)
         ∧ StronglySorted (λ m1 m2, (m_index m1 < m_index m2)%nat) ms
         ∧ getEnclosingClassName text = Ret (last ms ≫= captured_class))
  ∧ (∀ i c, occurs_at text i c →
       (∀ i' c', occurs_at text i' c' → (i' ≤ i)%nat) →
       getEnclosingClassName text = Ret (Some (cls c)))
  ∧ ((∀ i c, ¬ occurs_at text i c) → getEnclosingClassName text = Ret None)
  ∧ (∀ cA done cB, is_call cA = true → is_call cB = true →
       text = call_text cA ++ done ++ call_text cB →
       getEnclosingClassName text = Ret (Some (cls cB))).
Proof.
  split; [|split; [|split]].
  - destruct (all_matches_scan text) as (Hscan & Hall & Hin & Hsort).
    exists (all_matches text). split; [done|]. split; [|split].
    + intros m. split.
      * intros Hm. rewrite Forall_forall in Hall.
        destruct (Hall m Hm) as (i & c & Hc & _ & ->). eauto.
      * intros (i & c & Hc & ->). apply Hin; [done|lia].
    + clear Hin Hscan. induction Hsort as [|m ms Hms IH Hm]; [constructor|].
      apply Forall_cons in Hall as [(i & c & _ & _ & ->) Hall].
      constructor; [by apply IH|].
      eapply Forall_impl; [exact Hm|]. simpl. intros m'.
      unfold m_end; simpl. pose proof (call_text_length c). lia.
    + rewrite getEnclosingClassName_fold. f_equal.
      apply resolver_fold_last.
      eapply Forall_impl; [exact Hall|]. simpl.
      intros m (i & c & Hc & _ & ->).
      rewrite captured_class_match_of by apply Hc.
      destruct Hc as [(_ & _ & _ & _ & Hne & _)%is_call_inv _].
      by destruct (cls c).
  - apply resolver_last.
  - apply resolver_none.
  - intros cA done cB _ HcB ->. rewrite !app_assoc.
    by apply resolver_open_call.
Qed.

Lemma getEnclosingClassName_last_match_witness :
  getEnclosingClassName
    (call_text (mkCall (str "e") [] [] (Some ch_dquote) (str "A") [] [32])
     ++ str " Size = 1 } "
     ++ call_text (mkCall (str "e") [] [] (Some ch_dquote) (str "B") [] [32]))
  = Ret (Some (str "B"))
  ∧ getEnclosingClassName (str "local e = React.createElement") = Ret None.
Proof.
  split.
  - refine (proj2 (proj2 (proj2 (getEnclosingClassName_last_match _)))
      (mkCall (str "e") [] [] (Some ch_dquote) (str "A") [] [32])
      (str " Size = 1 } ")
      (mkCall (str "e") [] [] (Some ch_dquote) (str "B") [] [32]) _ _ _);
      reflexivity.
  - apply (proj1 (proj2 (proj2 (getEnclosingClassName_last_match _)))).
    apply no_occurrence_by_scan. vm_compute. reflexivity.
Defined.

(** C8. When the resolver returns a class name, the occurrence it took it
    from is among the matches the containment checker scans, it is the last
    one for that class, and the checker starts at its brace: the branch for
    [propsStartIndex === -1] is not taken. *)
Theorem resolved_class_has_match (text className : jstring) :
  getEnclosingClassName text = Ret (Some className) →
  ∃ ms i c,
    scan (S (length text)) (mkRegExp call_pattern 0) text = Some ms
    ∧ occurs_at text i c ∧ cls c = className
    ∧ match_of i c ∈ ms
    ∧ captured_class (match_of i c) = Some className
    ∧ findPropsStart text className = Ret (Z.of_nat (brace_index i c))
    ∧ findPropsStart text className ≠ Ret (-1)%Z.
Proof.
  intros Hres. exists (all_matches text).
  destruct (getEnclosingClassName_cases text)
    as [[Hnone _]|(i & c & Hsome & Hc & Hlast)]; [congruence|].
  rewrite Hsome in Hres. injection Hres as <-.
  assert (findPropsStart text (cls c) = Ret (Z.of_nat (brace_index i c)))
    as Hstart.
  { apply findPropsStart_last; [done..|]. intros i' c' Hc' _.
    by apply (Hlast i' c'). }
  exists i, c. split; [apply all_matches_scan|].
  split; [done|]. split; [done|]. split; [|split; [|split]].
  - destruct (all_matches_scan text) as (_ & _ & Hin & _).
    apply Hin; [done|lia].
  - apply captured_class_match_of, Hc.
  - done.
  - rewrite Hstart. intros [= ?]. lia.
Qed.

Lemma resolved_class_has_match_witness :
  ∃ ms i c,
    scan 15 (mkRegExp call_pattern 0) (str "x = e(Frame, {") = Some ms
    ∧ occurs_at (str "x = e(Frame, {") i c ∧ cls c = str "Frame"
    ∧ match_of i c ∈ ms
    ∧ captured_class (match_of i c) = Some (str "Frame")
    ∧ findPropsStart (str "x = e(Frame, {") (str "Frame")
      = Ret (Z.of_nat (brace_index i c))
    ∧ findPropsStart (str "x = e(Frame, {") (str "Frame") ≠ Ret (-1)%Z.
Proof.
  apply resolved_class_has_match. reflexivity.
Defined.

(** C9. The pattern has no word boundary before the spelling [e]: a call
    whose token is an identifier that merely ends in [e] is matched from
    that last letter on, and its class name is resolved. In fact any text
    at all may precede the [e]. *)
Theorem call_token_ending_in_e (ident : jstring) (c : call_site) :
  is_call c = true → callee c = str "e" →
  occurs_at (ident ++ call_text c) (length ident) c
  ∧ getEnclosingClassName (ident ++ call_text c) = Ret (Some (cls c)).
Proof.
  intros Hc _. split; [by apply occurs_at_end|by apply resolver_open_call].
Qed.

Lemma call_token_ending_in_e_witness :
  getEnclosingClassName
    (str "spawnTree(" ++ [ch_dquote] ++ str "Frame" ++ [ch_dquote] ++ str ", {")
  = Ret (Some (str "Frame")).
Proof.
  refine (proj2 (call_token_ending_in_e (str "spawnTre")
    (mkCall (str "e") [] [] (Some ch_dquote) (str "Frame") [] [32]) _ _));
    reflexivity.
Defined.

Example spawnTree_completions :
  provideCompletionItems None
    (str "spawnTree(" ++ [ch_dquote] ++ str "Frame" ++ [ch_dquote] ++ str ", {")
    20
  = Ret (Some (map (buildItem (str "Frame"))
                 (default [] (defaultPropsMap !! str "Frame")))).
Proof. reflexivity. Qed.

(** ** Claims about the containment checker *)

(** C3. The checker starts at the opening brace of the last occurrence of
    the call pattern for the class and reports the cursor inside exactly
    when the depth counter, after any later character of the window, is
    never zero. When the counter does reach zero, the pipeline returns no
    candidates. *)
Theorem isInsidePropsObject_brace_depth (text : jstring) :
  (∀ className i c,
     occurs_at text i c → cls c = className →
     (∀ i' c', occurs_at text i' c' → cls c' = className → (i' ≤ i)%nat) →
     text !! brace_index i c = Some ch_lbrace
     ∧ findPropsStart text className = Ret (Z.of_nat (brace_index i c))
     ∧ ∃ inside,
         isInsidePropsObject text className = Ret inside
         ∧ (inside = true
            ↔ ∀ j, (brace_index i c < j < length text)%nat →
                   depth_at text (brace_index i c) j ≠ 0%Z))
  ∧ (∀ config i c j,
       occurs_at text i c →
       (∀ i' c', occurs_at text i' c' → (i' ≤ i)%nat) →
       (brace_index i c < j < length text)%nat →
       depth_at text (brace_index i c) j = 0%Z →
       isInsidePropsObject text (cls c) = Ret false
       ∧ complete config text = Ret None).
Proof.
  split.
  - intros className i c Hc <- Hlast. split; [|split].
    + destruct (brace_index_lookup _ _ _ Hc) as (post & Hdrop & _).
      apply (f_equal (λ l, l !! 0%nat)) in Hdrop.
      by rewrite lookup_drop, Nat.add_0_r in Hdrop.
    + by apply findPropsStart_last.
    + by apply isInsidePropsObject_last.
  - intros config i c j Hc Hlast Hj Hz.
    destruct (complete_last config text i c Hc Hlast)
      as (inside & Hin & Hiff & ->).
    destruct inside.
    + destruct (proj1 Hiff eq_refl j Hj Hz).
    + split; [done|]. cbn zeta. by destruct (negb _ || _).
Qed.

Lemma isInsidePropsObject_brace_depth_witness :
  isInsidePropsObject (str "e(Frame, { Size = {1}, ") (str "Frame") = Ret true
  ∧ complete None (str "e(Frame, { Size = {1} } ") = Ret None.
Proof.
  split.
  - destruct (last_occurrence_by_scan (str "e(Frame, { Size = {1}, ") 0
      (mkCall (str "e") [] [] None (str "Frame") [] [32])
      eq_refl eq_refl) as [Hc Hlast].
    destruct (proj1 (isInsidePropsObject_brace_depth _) (str "Frame") _ _ Hc
      eq_refl (λ i' c' Hc' _, Hlast i' c' Hc'))
      as (_ & _ & inside & Hin & Hiff).
    rewrite Hin. f_equal. apply Hiff. unfold brace_index. simpl.
    intros j Hj.
    do 24 (destruct j as [|j]; [first [lia | by vm_compute]|]).
    lia.
  - destruct (last_occurrence_by_scan (str "e(Frame, { Size = {1} } ") 0
      (mkCall (str "e") [] [] None (str "Frame") [] [32])
      eq_refl eq_refl) as [Hc Hlast].
    refine (proj2 (proj2 (isInsidePropsObject_brace_depth _) None _ _ 22%nat
      Hc Hlast _ _)).
    + vm_compute. lia.
    + reflexivity.
Defined.

(** ** Outcomes of the pipeline *)

(** The iteration budget of the scanning loops is always enough, and the
    only exception the pipeline can raise is the [TypeError] of
    [props.map]. *)
Lemma complete_outcome config text :
  complete config text = Throw TypeError ∨ ∃ r, complete config text = Ret r.
Proof.
  destruct (last_occurrence text) as [Hnone|(i & c & Hc & Hlast)].
  { right. exists None. by apply complete_no_call. }
  destruct (complete_last config text i c Hc Hlast) as (inside & _ & _ & ->).
  cbn zeta. destruct (negb _ || _); [by eauto|].
  destruct inside; [|by eauto].
  destruct (getPropsForClass config (cls c)); cbn; eauto.
Qed.

(** Away from the member names of [Object.prototype] the pipeline always
    returns. *)
Lemma complete_returns config text :
  (∀ i c, occurs_at text i c → object_prototype !! cls c = None) →
  ∃ r, complete config text = Ret r.
Proof.
  intros Hplain.
  destruct (last_occurrence text) as [Hnone|(i & c & Hc & Hlast)].
  { exists None. by apply complete_no_call. }
  destruct (complete_last config text i c Hc Hlast) as (inside & _ & _ & ->).
  cbn zeta. unfold getPropsForClass, or_value, get. rewrite (Hplain i c Hc).
  destruct (default defaultPropsMap config !! cls c) as [items|]; cbn.
  { destruct (bool_decide _), inside; cbn; eauto. }
  destruct (defaultPropsMap !! cls c) as [items|]; cbn; [|by eauto].
  destruct (bool_decide _), inside; cbn; eauto.
Qed.

Lemma object_prototype_values key v :
  object_prototype !! key = Some v →
  (∃ arity, v = VFunction arity) ∨ v = VObjectPrototype.
Proof.
  unfold object_prototype. cbn [list_to_map foldr uncurry].
  repeat (rewrite lookup_insert; case_decide; [intros [= <-]; by eauto|]).
  by rewrite lookup_empty.
Qed.

(** The extent of the defect behind C6 and C7: whatever precedes the call,
    a class that names an inherited member whose [length] is not 0, and
    that the user map does not define, makes the pipeline throw as soon as
    the props object is opened. *)
Lemma inherited_member_throws config pre c v :
  is_call c = true →
  default defaultPropsMap config !! cls c = None →
  object_prototype !! cls c = Some v → length_is_zero v = false →
  complete config (pre ++ call_text c) = Throw TypeError.
Proof.
  intros Hc Huser Hproto Hlen.
  destruct (occurs_at_end pre c Hc) as [Hocc Hlast].
  destruct (complete_last config _ _ _ Hocc Hlast)
    as (inside & _ & Hiff & ->).
  assert (inside = true) as ->.
  { apply Hiff. intros j Hj. unfold brace_index in Hj.
    rewrite length_app in Hj. lia. }
  unfold getPropsForClass, or_value, get. rewrite Huser, Hproto. cbn.
  by destruct (object_prototype_values _ _ Hproto) as [[arity ->]| ->];
    cbn in *; rewrite ?Hlen.
Qed.

(** The failure modes that do end in [undefined], next to
    [complete_no_call]. *)
Lemma complete_no_props config text i c :
  occurs_at text i c →
  (∀ i' c', occurs_at text i' c' → (i' ≤ i)%nat) →
  getPropsForClass config (cls c) = VUndefined
  ∨ getPropsForClass config (cls c) = VArray [] →
  complete config text = Ret None.
Proof.
  intros Hc Hlast Hprops.
  destruct (complete_last config text i c Hc Hlast) as (inside & _ & _ & ->).
  by destruct Hprops as [-> | ->].
Qed.

Lemma complete_outside config text i c :
  occurs_at text i c →
  (∀ i' c', occurs_at text i' c' → (i' ≤ i)%nat) →
  isInsidePropsObject text (cls c) = Ret false →
  complete config text = Ret None.
Proof.
  intros Hc Hlast Hout.
  destruct (complete_last config text i c Hc Hlast) as (inside & Hin & _ & ->).
  rewrite Hout in Hin. injection Hin as <-.
  cbn zeta. by destruct (negb _ || _).
Qed.

(** C6 fails on the code. The class [hasOwnProperty] is a key of neither
    map, yet the lookup finds the method every object inherits, a truthy
    value whose [length] is 1; the cursor is inside the props object, and
    [props.map] raises a [TypeError] instead of the pipeline returning
    [undefined]. *)
Theorem class_in_neither_map_throws :
  (∅ : gmap jstring (list jstring)) !! str "hasOwnProperty" = None
  ∧ defaultPropsMap !! str "hasOwnProperty" = None
  ∧ getEnclosingClassName (str "e(hasOwnProperty, {")
    = Ret (Some (str "hasOwnProperty"))
  ∧ getPropsForClass (Some ∅) (str "hasOwnProperty") = VFunction 1
  ∧ provideCompletionItems (Some ∅) (str "e(hasOwnProperty, {") 19
    = Throw TypeError.
Proof. repeat split; reflexivity. Qed.

(** C7 fails on the code. With the document
    [e(QconstructorQ, {] (Q the double quote), the cursor at its end and
    no user setting, [provideCompletionItems] raises a [TypeError]. *)
Theorem provideCompletionItems_throws :
  provideCompletionItems None
    (str "e(" ++ [ch_dquote] ++ str "constructor" ++ [ch_dquote] ++ str ", {")
    18
  = Throw TypeError.
Proof. reflexivity. Qed.

(** * Further properties of the scanning methods *)

(** ** The call pattern at one position *)

(** The pattern matches at the start of [s] exactly when [s] starts with a
    call site: [React.createElement] or [e], white space, an opening
    parenthesis, white space, a class name of word characters that is bare
    or between two equal quotes, white space, a comma, white space, an
    opening brace. The match is then that call site: what is left of the
    input and the capture groups are determined. *)
Theorem call_pattern_matches_iff (s : jstring) (st : mstate) :
  rmatch call_pattern (MState s ∅) Some = Some st
  ↔ ∃ c, is_call c = true ∧ s = call_text c ++ rest st
         ∧ caps st = call_groups c.
Proof.
  split; [apply call_pattern_sound|].
  intros (c & Hc & -> & Hcaps).
  rewrite (call_pattern_complete c (rest st) Hc), <-Hcaps. by destruct st.
Qed.

(** Two occurrences of the call pattern never overlap, and at one index
    there is at most one: the matches of the non-overlapping scan are all
    the occurrences there are. *)
Theorem occurrences_never_overlap (text : jstring) (i1 i2 : nat)
    (c1 c2 : call_site) :
  occurs_at text i1 c1 → occurs_at text i2 c2 →
  ((i1 < i2)%nat → (i1 + length (call_text c1) ≤ i2)%nat)
  ∧ (i1 = i2 → match_of i1 c1 = match_of i2 c2).
Proof.
  intros H1 H2. split; [exact (occurs_disjoint _ _ _ _ _ H1 H2)|].
  intros <-. by apply (occurs_unique text).
Qed.

Lemma occurrences_never_overlap_witness :
  (0 + length (call_text (mkCall (str "e") [] [] None (str "A") [] [])) ≤ 6)%nat.
Proof.
  refine (proj1 (occurrences_never_overlap (str "e(A,{ e(B,{") 0 6
    (mkCall (str "e") [] [] None (str "A") [] [])
    (mkCall (str "e") [] [] None (str "B") [] []) _ _) _).
  - split; [reflexivity|]. by exists [], (str " e(B,{").
  - split; [reflexivity|]. by exists (str "e(A,{ "), [].
  - lia.
Defined.

(** ** What the two scanning loops return *)

Lemma is_call_class c :
  is_call c = true → cls c ≠ [] ∧ forallb is_word (cls c) = true.
Proof. by intros (_ & _ & _ & _ & ? & ? & _)%is_call_inv. Qed.

(** The resolver always returns: [undefined] exactly when the call pattern
    does not occur in the text, and otherwise the class of an occurrence,
    a non-empty string of letters, digits and underscores. *)
Theorem getEnclosingClassName_result (text : jstring) :
  ∃ r, getEnclosingClassName text = Ret r
    ∧ match r with
      | None => ∀ i c, ¬ occurs_at text i c
      | Some className =>
          className ≠ [] ∧ forallb is_word className = true
          ∧ ∃ i c, occurs_at text i c ∧ cls c = className
      end.
Proof.
  destruct (getEnclosingClassName_cases text)
    as [[Hres Hnone]|(i & c & Hres & Hc & _)].
  - by exists None.
  - exists (Some (cls c)). split; [done|].
    destruct (is_call_class c (proj1 Hc)) as [? ?]. eauto 6.
Qed.

Lemma last_such {A} (P : A → Prop) `{∀ x, Decision (P x)} (l : list A) :
  Forall (λ x, ¬ P x) l
  ∨ ∃ l1 x l2, l = l1 ++ x :: l2 ∧ P x ∧ Forall (λ x, ¬ P x) l2.
Proof.
  induction l as [|a l [IH|(l1 & x & l2 & -> & Hx & Hl2)]].
  - by left.
  - destruct (decide (P a)) as [Ha|Ha].
    + right. by exists [], a, l.
    + left. by constructor.
  - right. by exists (a :: l1), x, l2.
Qed.

Lemma last_occurrence_of_class text className :
  (∀ i c, occurs_at text i c → cls c ≠ className)
  ∨ ∃ i c, occurs_at text i c ∧ cls c = className
      ∧ ∀ i' c', occurs_at text i' c' → cls c' = className → (i' ≤ i)%nat.
Proof.
  destruct (all_matches_scan text) as (_ & Hall & Hin & Hsort).
  destruct (last_such (λ m, captured_class m = Some className)
    (all_matches text)) as [Hno|(l1 & m & l2 & Hl & Hm & Hl2)].
  - left. intros i c Hc Hcls.
    specialize (Hin i c Hc (Nat.le_0_l _)).
    rewrite Forall_forall in Hno. apply (Hno _ Hin).
    by rewrite captured_class_match_of, Hcls by apply Hc.
  - right. rewrite Hl in *.
    apply Forall_app in Hall as [_ Hall].
    apply Forall_cons in Hall as [(i & c & Hc & _ & ->) _].
    rewrite captured_class_match_of in Hm by apply Hc. injection Hm as Hm.
    exists i, c. split; [done|]. split; [done|]. intros i' c' Hc' Hcls.
    specialize (Hin i' c' Hc' (Nat.le_0_l _)).
    apply elem_of_app in Hin as [Hin|Hin].
    + pose proof (StronglySorted_app_1_elem_of _ _ _ _ _ Hsort Hin
        (list_elem_of_here _ _)) as Hle.
      unfold m_end in Hle; simpl in Hle. lia.
    + apply elem_of_cons in Hin as [Heq|Hin]; [by injection Heq as ->|].
      rewrite Forall_forall in Hl2. destruct (Hl2 _ Hin).
      by rewrite captured_class_match_of, Hcls by apply Hc'.
Qed.

(** The first loop of the containment checker always finishes. It leaves
    [propsStartIndex] at -1 exactly when no call in the text names the
    class, and [isInsidePropsObject] then answers [false]; otherwise the
    index is inside the text and the character there is an opening brace,
    so the brace walk starts in bounds. *)
Theorem findPropsStart_range (text className : jstring) :
  ∃ z inside,
    findPropsStart text className = Ret z
    ∧ isInsidePropsObject text className = Ret inside
    ∧ (z = (-1)%Z ↔ ∀ i c, occurs_at text i c → cls c ≠ className)
    ∧ (z = (-1)%Z → inside = false)
    ∧ (z ≠ (-1)%Z →
       (0 ≤ z < Z.of_nat (length text))%Z
       ∧ text !! Z.to_nat z = Some ch_lbrace).
Proof.
  destruct (last_occurrence_of_class text className)
    as [Hnone|(i & c & Hc & Hcls & Hlast)].
  - exists (-1)%Z, false. split; [by apply findPropsStart_none|].
    split; [by apply isInsidePropsObject_none|]. by repeat split.
  - destruct (isInsidePropsObject_last text i c Hc) as (inside & Hin & _).
    { intros i' c' Hc' Heq. apply (Hlast i' c' Hc'). congruence. }
    rewrite Hcls in Hin.
    exists (Z.of_nat (brace_index i c)), inside.
    split; [by apply findPropsStart_last|]. split; [done|].
    destruct (brace_index_lookup _ _ _ Hc) as (post & Hdrop & Hlt).
    split; [|split].
    + split; [lia|]. intros Hnone. destruct (Hnone i c Hc Hcls).
    + lia.
    + intros _. split; [lia|]. rewrite Nat2Z.id.
      apply (f_equal (λ l, l !! 0%nat)) in Hdrop.
      by rewrite lookup_drop, Nat.add_0_r in Hdrop.
Qed.

Lemma call_text_min_length c : is_call c = true → (5 ≤ length (call_text c))%nat.
Proof.
  intros (Hw & _ & _ & _ & Hne & _)%is_call_inv.
  unfold call_text, call_arg. rewrite !length_app. cbn [length].
  rewrite !length_app.
  assert (1 ≤ length (callee c))%nat
    by (destruct Hw as [-> | ->]; vm_compute; lia).
  assert (1 ≤ length (cls c))%nat by (destruct (cls c); [done|cbn; lia]).
  destruct (quote c); cbn [length]; rewrite ?length_app; cbn [length]; lia.
Qed.

Lemma matches_fit text : ∀ ms li,
  Forall (λ m, ∃ i c, occurs_at text i c ∧ (li ≤ i)%nat ∧ m = match_of i c) ms →
  StronglySorted (λ m1 m2, (m_end m1 ≤ m_index m2)%nat) ms →
  (li ≤ length text)%nat →
  (5 * length ms + li ≤ length text)%nat.
Proof.
  induction ms as [|m ms IH]; intros li Hall Hsort Hli; [simpl; lia|].
  apply Forall_cons in Hall as [(i & c & Hc & Hi & ->) Hall].
  apply StronglySorted_inv in Hsort as [Hsort Hm].
  pose proof (occurs_at_bound _ _ _ Hc) as Hb.
  pose proof (call_text_min_length c (proj1 Hc)) as Hmin.
  specialize (IH (i + length (call_text c))%nat).
  cbn [length]. enough (5 * length ms + (i + length (call_text c))
    ≤ length text)%nat by lia.
  apply IH; [|done..].
  rewrite Forall_forall in Hall, Hm. apply Forall_forall. intros m' Hm'.
  destruct (Hall _ Hm') as (i' & c' & Hc' & _ & ->). exists i', c'.
  split; [done|]. split; [|done].
  specialize (Hm _ Hm'). by unfold m_end in Hm; simpl in Hm.
Qed.

(** Each scanning loop ends within its budget of [length text + 1] calls
    of [exec], and its body runs at most once for every five characters of
    the text: an occurrence has at least the five characters of
    [e(x,{]. *)
Theorem scan_match_count (text : jstring) :
  ∃ ms, scan (S (length text)) (mkRegExp call_pattern 0) text = Some ms
        ∧ (5 * length ms ≤ length text)%nat.
Proof.
  destruct (all_matches_scan text) as (Hscan & Hall & _ & Hsort).
  exists (all_matches text). split; [done|].
  pose proof (matches_fit text _ 0%nat Hall Hsort (Nat.le_0_l _)). lia.
Qed.

(** ** The text after the opening brace *)

Lemma occurs_has_paren_brace s n c :
  occurs_at s n c → ∃ a b d, s = a ++ ch_lparen :: b ++ ch_lbrace :: d.
Proof.
  intros (_ & pre & post & -> & _). rewrite call_text_split.
  exists (pre ++ call_head c), (call_body c), post. by norm_app.
Qed.

Lemma no_occurrence_lbrace_free s :
  lbrace_free s = true → ∀ n c, ¬ occurs_at s n c.
Proof.
  intros Hs n c (a & b & d & ->)%occurs_has_paren_brace.
  unfold lbrace_free in Hs.
  rewrite forallb_app in Hs. cbn [forallb] in Hs.
  rewrite forallb_app in Hs. cbn [forallb] in Hs.
  rewrite N.eqb_refl, !andb_true_iff in Hs.
  by destruct Hs as (_ & _ & _ & Hf & _).
Qed.

Lemma no_occurrence_nested w1 w2 :
  lparen_free w1 = true → lbrace_free w1 = true → lbrace_free w2 = true →
  ∀ n c, ¬ occurs_at (w1 ++ ch_lbrace :: w2) n c.
Proof.
  intros Hp H1 H2 n c (a & b & d & Heq)%occurs_has_paren_brace.
  rewrite (app_comm_cons b), app_assoc in Heq.
  assert (w1 = a ++ ch_lparen :: b) as Hw1.
  { unfold lbrace_free in *.
    apply app_eq_inv in Heq as [(k & Hk & Heq)|(k & Hk & Heq)];
      destruct k as [|x k]; simpl in Heq.
    - by rewrite app_nil_r in Hk.
    - injection Heq as <- _. rewrite Hk, forallb_app in H1.
      cbn [forallb] in H1. rewrite N.eqb_refl, !andb_true_iff in H1.
      by destruct H1 as (_ & Hf & _).
    - by rewrite app_nil_r in Hk.
    - injection Heq as <- Heq. rewrite Heq, forallb_app in H2.
      cbn [forallb] in H2. rewrite N.eqb_refl, !andb_true_iff in H2.
      by destruct H2 as (_ & Hf & _). }
  unfold lparen_free in Hp. rewrite Hw1, forallb_app in Hp.
  cbn [forallb] in Hp. rewrite N.eqb_refl, !andb_true_iff in Hp.
  by destruct Hp as (_ & Hf & _).
Qed.

Lemma brace_free_lbrace_free w : brace_free w = true → lbrace_free w = true.
Proof.
  apply forallb_weaken. intros c. unfold is_brace.
  by destruct (c =? ch_lbrace).
Qed.

Lemma call_then_body pre c body :
  is_call c = true → (∀ n c', ¬ occurs_at body n c') →
  occurs_at (pre ++ call_text c ++ body) (length pre) c
  ∧ (∀ i' c', occurs_at (pre ++ call_text c ++ body) i' c' →
       (i' ≤ length pre)%nat)
  ∧ ∃ start i, (start < i)%Z
      ∧ isInsidePropsObject (pre ++ call_text c ++ body) (cls c)
        = Ret (negb (brace_walk body i start 1)).
Proof.
  intros Hc Hbody. set (text := pre ++ call_text c ++ body).
  assert (occurs_at text (length pre) c) as Hocc.
  { split; [done|]. by exists pre, body. }
  assert (∀ i' c', occurs_at text i' c' → (i' ≤ length pre)%nat) as Hlast.
  { intros i' c' Hc'.
    destruct (Nat.le_gt_cases i' (length pre)) as [|Hgt]; [done|].
    pose proof (occurs_disjoint _ _ _ _ _ Hocc Hc' Hgt) as Hdis.
    replace i' with ((length pre + length (call_text c))
      + (i' - (length pre + length (call_text c))))%nat in Hc' by lia.
    assert (length pre + length (call_text c) ≤ length text)%nat as Hle
      by (unfold text; rewrite !length_app; lia).
    apply (proj2 (occurs_at_drop text _ _ _ Hle)) in Hc'.
    unfold text in Hc'.
    rewrite app_assoc, <-length_app, drop_app_length in Hc'.
    by apply Hbody in Hc'. }
  split; [done|]. split; [done|].
  exists (Z.of_nat (brace_index (length pre) c)),
    (Z.of_nat (brace_index (length pre) c) + 1)%Z.
  split; [lia|]. unfold isInsidePropsObject.
  rewrite (findPropsStart_last text (cls c) (length pre) c Hocc eq_refl)
    by (intros i' c' Hc' _; by apply (Hlast i' c')).
  cbn [mbind result_bind].
  destruct (Z.eqb_spec (Z.of_nat (brace_index (length pre) c)) (-1))
    as [|_]; [lia|].
  rewrite Nat2Z.id.
  destruct (brace_index_lookup _ _ _ Hocc) as (post & Hdrop & _).
  assert (post = body) as ->.
  { apply (f_equal (drop 1)) in Hdrop. rewrite drop_drop in Hdrop.
    cbn [drop] in Hdrop. rewrite drop_0 in Hdrop.
    rewrite <-Hdrop. unfold brace_index, text.
    pose proof (call_text_length c).
    replace (length pre + length (call_text c) - 1 + 1)%nat
      with (length (pre ++ call_text c)) by (rewrite length_app; lia).
    by rewrite app_assoc, drop_app_length. }
  rewrite Hdrop. cbn [brace_walk]. by rewrite N.eqb_refl.
Qed.

Lemma complete_call_then_body config pre c body :
  is_call c = true → (∀ n c', ¬ occurs_at body n c') →
  ∃ start i, (start < i)%Z
    ∧ complete config (pre ++ call_text c ++ body)
      = let props := getPropsForClass config (cls c) in
        if negb (truthy props) || length_is_zero props then Ret None
        else if brace_walk body i start 1 then Ret None
             else items ← buildItemsForProps (cls c) props; Ret (Some items).
Proof.
  intros Hc Hbody.
  destruct (call_then_body pre c body Hc Hbody)
    as (Hocc & Hlast & start & i & Hlt & Hin).
  exists start, i. split; [done|].
  destruct (complete_last config _ _ _ Hocc Hlast)
    as (inside & Hin' & _ & ->).
  rewrite Hin in Hin'. injection Hin' as <-. cbn zeta.
  destruct (negb _ || _); [done|]. by destruct (brace_walk body i start 1).
Qed.

Lemma walk_brace_free w : ∀ s i start d,
  brace_free w = true →
  brace_walk (w ++ s) i start d
  = brace_walk s (i + Z.of_nat (length w)) start d.
Proof.
  induction w as [|x w IH]; intros s i start d Hw.
  - simpl. f_equal. lia.
  - cbn in Hw. apply andb_prop in Hw as [Hx Hw].
    unfold is_brace in Hx. apply negb_true_iff, orb_false_elim in Hx as [Hl Hr].
    cbn [app brace_walk]. rewrite Hl, Hr, IH by done. f_equal.
    cbn [length]. lia.
Qed.

Lemma walk_open body i start d :
  brace_free body = true → brace_walk body i start d = false.
Proof.
  intros Hw. rewrite <-(app_nil_r body). by rewrite walk_brace_free.
Qed.

Lemma walk_close w rest i start :
  brace_free w = true → (start < i)%Z →
  brace_walk (w ++ ch_rbrace :: rest) i start 1 = true.
Proof.
  intros Hw Hlt. rewrite walk_brace_free by done. cbn.
  by rewrite (proj2 (Z.ltb_lt start _)) by lia.
Qed.

Lemma walk_nested w1 w2 w3 i start :
  brace_free w1 = true → brace_free w2 = true → brace_free w3 = true →
  brace_walk (w1 ++ ch_lbrace :: w2 ++ ch_rbrace :: w3) i start 1 = false.
Proof.
  intros H1 H2 H3. rewrite walk_brace_free by done. cbn [brace_walk].
  rewrite N.eqb_refl, walk_brace_free by done. cbn.
  by apply walk_open.
Qed.

(** While what has been typed after the opening brace of the last call
    holds no brace, the cursor counts as inside and the candidates of the
    class are returned, whatever precedes the call; right after the brace
    in particular. *)
Theorem suggestions_while_typing (config : settings) (pre body : jstring)
    (c : call_site) (props : list jstring) :
  is_call c = true → brace_free body = true →
  getPropsForClass config (cls c) = VArray props → props ≠ [] →
  complete config (pre ++ call_text c ++ body)
  = Ret (Some (map (buildItem (cls c)) props)).
Proof.
  intros Hc Hbody Hprops Hne.
  destruct (complete_call_then_body config pre c body Hc)
    as (start & i & _ & ->).
  { by apply no_occurrence_lbrace_free, brace_free_lbrace_free. }
  rewrite Hprops, walk_open by done. cbn. by destruct props.
Qed.

Lemma suggestions_while_typing_witness :
  complete None (str "local f = e(Frame, { Size = UDim2.new(1, 0, 1, 0), ")
  = Ret (Some (map (buildItem (str "Frame"))
                 (default [] (defaultPropsMap !! str "Frame")))).
Proof.
  refine (suggestions_while_typing None (str "local f = ")
    (str " Size = UDim2.new(1, 0, 1, 0), ")
    (mkCall (str "e") [] [] None (str "Frame") [] [32]) _ _ _ _ _);
    try reflexivity.
  discriminate.
Defined.

(** The first closing brace typed after the opening brace of the last call
    ends the suggestions, and they stay off for whatever follows as long as
    no further opening brace comes. Braces are counted wherever they
    stand, also inside a string or a comment, and an outer call that is
    still open does not get the suggestions back. *)
Theorem closing_brace_ends_suggestions (config : settings)
    (pre w rest : jstring) (c : call_site) :
  is_call c = true → brace_free w = true → lbrace_free rest = true →
  isInsidePropsObject (pre ++ call_text c ++ w ++ ch_rbrace :: rest) (cls c)
  = Ret false
  ∧ complete config (pre ++ call_text c ++ w ++ ch_rbrace :: rest) = Ret None.
Proof.
  intros Hc Hw Hrest.
  assert (∀ n c', ¬ occurs_at (w ++ ch_rbrace :: rest) n c') as Hbody.
  { apply no_occurrence_lbrace_free. unfold lbrace_free.
    rewrite forallb_app. apply andb_true_intro. split.
    - by apply brace_free_lbrace_free.
    - done. }
  split.
  - destruct (call_then_body pre c _ Hc Hbody)
      as (_ & _ & start & i & Hlt & ->).
    by rewrite walk_close.
  - destruct (complete_call_then_body config pre c _ Hc Hbody)
      as (start & i & Hlt & ->).
    rewrite walk_close by done. cbn zeta. by destruct (negb _ || _).
Qed.

Lemma closing_brace_ends_suggestions_witness :
  complete None (str "e(Frame, { e(TextLabel, { Text = 'a}b' ") = Ret None.
Proof.
  refine (proj2 (closing_brace_ends_suggestions None (str "e(Frame, { ")
    (str " Text = 'a") (str "b' ")
    (mkCall (str "e") [] [] None (str "TextLabel") [] [32]) _ _ _));
    reflexivity.
Defined.

(** A nested table that has been opened and closed again after the opening
    brace of the last call leaves the cursor inside: the candidates are
    still returned. *)
Theorem nested_table_keeps_suggestions (config : settings)
    (pre w1 w2 w3 : jstring) (c : call_site) (props : list jstring) :
  is_call c = true →
  brace_free w1 = true → lparen_free w1 = true →
  brace_free w2 = true → brace_free w3 = true →
  getPropsForClass config (cls c) = VArray props → props ≠ [] →
  complete config
    (pre ++ call_text c ++ w1 ++ ch_lbrace :: w2 ++ ch_rbrace :: w3)
  = Ret (Some (map (buildItem (cls c)) props)).
Proof.
  intros Hc H1 Hp H2 H3 Hprops Hne.
  destruct (complete_call_then_body config pre c
    (w1 ++ ch_lbrace :: w2 ++ ch_rbrace :: w3) Hc) as (start & i & _ & ->).
  { apply no_occurrence_nested; [done|by apply brace_free_lbrace_free|].
    unfold lbrace_free. rewrite forallb_app. apply andb_true_intro. split.
    - by apply brace_free_lbrace_free.
    - by apply (brace_free_lbrace_free w3). }
  rewrite Hprops, walk_nested by done. cbn. by destruct props.
Qed.

Lemma nested_table_keeps_suggestions_witness :
  complete (Some {[ str "Frame" := [str "Size"] ]})
    (str "e(Frame, { Tags = { 1, 2 }, ")
  = Ret (Some [buildItem (str "Frame") (str "Size")]).
Proof.
  refine (nested_table_keeps_suggestions
    (Some {[ str "Frame" := [str "Size"] ]}) [] (str " Tags = ")
    (str " 1, 2 ") (str ", ")
    (mkCall (str "e") [] [] None (str "Frame") [] [32]) [str "Size"]
    _ _ _ _ _ _ _); try reflexivity.
  discriminate.
Defined.

(** ** When the pipeline returns and when it throws *)

(** The pipeline returns, without an exception, whenever the class the
    resolver finds is a key of the user map or is not the name of a member
    inherited from [Object.prototype]. *)
Theorem returns_unless_inherited (config : settings) (text : jstring) :
  (∀ className, getEnclosingClassName text = Ret (Some className) →
     object_prototype !! className = None
     ∨ is_Some (default defaultPropsMap config !! className)) →
  ∃ r, complete config text = Ret r.
Proof.
  intros Hsafe.
  destruct (getEnclosingClassName_cases text)
    as [[_ Hnone]|(i & c & Hres & Hc & Hlast)].
  { exists None. by apply complete_no_call. }
  destruct (complete_last config text i c Hc Hlast) as (inside & _ & _ & ->).
  cbn zeta. unfold getPropsForClass, or_value, get.
  destruct (Hsafe _ Hres) as [Hproto|[items Hitems]].
  - rewrite Hproto.
    destruct (default defaultPropsMap config !! cls c) as [items|]; cbn.
    { destruct (bool_decide _), inside; cbn; eauto. }
    destruct (defaultPropsMap !! cls c) as [items|]; cbn; [|by eauto].
    destruct (bool_decide _), inside; cbn; eauto.
  - rewrite Hitems. cbn. destruct (bool_decide _), inside; cbn; eauto.
Qed.

Lemma returns_unless_inherited_witness :
  ∃ r, complete (Some {[ str "constructor" := [str "Name"] ]})
         (str "e(constructor, { ") = Ret r.
Proof.
  apply returns_unless_inherited. intros className Hres.
  vm_compute in Hres. injection Hres as <-. right. by eexists.
Defined.

Lemma inherited_member_throws_witness :
  complete None
    (str "local x = "
     ++ call_text (mkCall (str "React.createElement") [] [32]
                     (Some ch_squote) (str "isPrototypeOf") [] [10]))
  = Throw TypeError.
Proof.
  apply (inherited_member_throws None (str "local x = ")
    (mkCall (str "React.createElement") [] [32]
       (Some ch_squote) (str "isPrototypeOf") [] [10]) (VFunction 1));
    reflexivity.
Defined.

(** A class without a list gets no suggestions: an empty list in the user
    map switches the class off even when a built-in list exists for it, and
    so does a class that neither map has and that names no inherited
    member. *)
Theorem no_list_no_suggestions (config : settings) (text className : jstring) :
  getEnclosingClassName text = Ret (Some className) →
  default defaultPropsMap config !! className = Some []
  ∨ (default defaultPropsMap config !! className = None
     ∧ defaultPropsMap !! className = None
     ∧ object_prototype !! className = None) →
  complete config text = Ret None.
Proof.
  intros Hres Hmaps.
  destruct (getEnclosingClassName_cases text)
    as [[Hnone _]|(i & c & Hsome & Hc & Hlast)]; [congruence|].
  rewrite Hsome in Hres. injection Hres as <-.
  apply (complete_no_props config text i c Hc Hlast).
  unfold getPropsForClass, or_value, get.
  destruct Hmaps as [-> | (-> & -> & ->)]; auto.
Qed.

Lemma no_list_no_suggestions_witness :
  complete (Some {[ str "Frame" := [] ]}) (str "e(Frame, { ") = Ret None
  ∧ complete None (str "e(Part, { ") = Ret None.
Proof.
  split.
  - apply (no_list_no_suggestions _ _ (str "Frame")); [reflexivity|].
    left. reflexivity.
  - apply (no_list_no_suggestions _ _ (str "Part")); [reflexivity|].
    right. by repeat split.
Defined.

(** ** Quotes that do not pair *)

Lemma unique_split (ch : N) A B X Y :
  forallb (λ x, negb (x =? ch)) A = true →
  forallb (λ x, negb (x =? ch)) B = true →
  A ++ ch :: B = X ++ ch :: Y → X = A ∧ Y = B.
Proof.
  intros HA HB Heq.
  apply app_eq_inv in Heq as [(k & Hk & Heq)|(k & Hk & Heq)];
    destruct k as [|x k]; simpl in Heq.
  - rewrite app_nil_r in Hk. by injection Heq as ->.
  - injection Heq as <- _. rewrite Hk, forallb_app in HA.
    cbn [forallb] in HA. rewrite N.eqb_refl, !andb_true_iff in HA.
    by destruct HA as (_ & Hf & _).
  - rewrite app_nil_r in Hk. by injection Heq as ->.
  - injection Heq as <- Heq. rewrite Heq, forallb_app in HB.
    cbn [forallb] in HB. rewrite N.eqb_refl, !andb_true_iff in HB.
    by destruct HB as (_ & Hf & _).
Qed.

Lemma plain_lparen_free w : forallb plain w = true → lparen_free w = true.
Proof.
  apply forallb_weaken. intros c. unfold plain.
  by intros [? _]%andb_prop.
Qed.

(** In a text with one opening parenthesis, then neither parenthesis nor
    brace up to a final opening brace, an occurrence of the call pattern
    has all of that as its argument part. *)
Lemma single_paren_occurrence pre body0 i c :
  lparen_free pre = true → forallb plain body0 = true →
  occurs_at (pre ++ ch_lparen :: body0 ++ [ch_lbrace]) i c →
  call_body c = body0.
Proof.
  intros Hpre Hplain (Hc & pre' & post' & Heq & _).
  rewrite call_text_split in Heq.
  replace (pre' ++ (call_head c ++ ch_lparen :: call_body c ++ [ch_lbrace])
             ++ post')
    with ((pre' ++ call_head c) ++ ch_lparen
            :: (call_body c ++ ch_lbrace :: post')) in Heq by by norm_app.
  apply unique_split in Heq as [_ Heq]; [|done|].
  2:{ unfold lparen_free. rewrite forallb_app.
      by rewrite (plain_lparen_free _ Hplain : forallb _ _ = true). }
  by apply (split_unique plain) in Heq as (Heq & _);
    [|by apply call_body_plain|done..].
Qed.


(** A class name that opens with one quote character and closes with the
    other is no call site: after any text without a parenthesis, such an
    argument followed by the comma and the brace resolves no class. *)
Theorem mismatched_quotes_not_resolved (pre w2 cl w3 w4 : jstring) (q1 q2 : N) :
  lparen_free pre = true →
  forallb is_space w2 = true → forallb is_word cl = true →
  forallb is_space w3 = true → forallb is_space w4 = true →
  is_quote q1 = true → is_quote q2 = true → q1 ≠ q2 →
  getEnclosingClassName
    (pre ++ ch_lparen :: w2 ++ q1 :: cl ++ q2 :: w3
       ++ ch_comma :: w4 ++ [ch_lbrace])
  = Ret None.
Proof.
  intros Hpre Hw2 Hcl Hw3 Hw4 Hq1 Hq2 Hne. apply resolver_none.
  intros i c Hocc. pose proof (proj1 Hocc) as Hc.
  set (body0 := w2 ++ q1 :: cl ++ q2 :: w3 ++ ch_comma :: w4).
  assert (forallb plain body0 = true) as Hplain.
  { unfold body0. rewrite forallb_app. cbn [forallb].
    rewrite forallb_app. cbn [forallb]. rewrite forallb_app. cbn [forallb].
    rewrite (plain_space _ Hw2), (plain_word _ Hcl), (plain_space _ Hw3),
      (plain_space _ Hw4).
    apply quote_not_punct in Hq1 as (? & _ & ?).
    apply quote_not_punct in Hq2 as (? & _ & ?).
    unfold plain.
    by rewrite !(proj2 (N.eqb_neq q1 _)), !(proj2 (N.eqb_neq q2 _)). }
  assert (call_body c = body0) as Hbody.
  { apply (single_paren_occurrence pre body0 i c Hpre Hplain).
    revert Hocc. unfold body0. by norm_app. }
  destruct (is_call_inv c Hc) as (_ & _ & Hs2 & Hq & Hcne & Hcw & Hs3 & Hs4).
  unfold call_body, call_arg, body0 in Hbody.
  destruct (quote c) as [q|].
  - revert Hbody. norm_app. intros Hbody.
    apply (split_unique is_space) in Hbody as (_ & -> & Hbody);
      [|done|done|by apply quote_not_space..].
    apply (split_unique is_word) in Hbody as (_ & ? & _);
      [done|done|done|by apply quote_not_word..].
  - destruct (cls c) as [|x cw]; [done|]. cbn in Hcw.
    apply andb_prop in Hcw as [Hx _].
    revert Hbody. norm_app. intros Hbody.
    apply (split_unique is_space) in Hbody as (_ & -> & _);
      [|done|done|by apply word_not_space|by apply quote_not_space].
    apply word_not_quote in Hx. congruence.
Qed.

Lemma mismatched_quotes_not_resolved_witness :
  getEnclosingClassName
    (str "e(" ++ [ch_dquote] ++ str "Frame" ++ [ch_squote] ++ str ", {")
  = Ret None.
Proof.
  refine (mismatched_quotes_not_resolved (str "e") [] (str "Frame") [] [32]
    ch_dquote ch_squote _ _ _ _ _ _ _ _); try reflexivity.
  discriminate.
Defined.

(** ** Class arguments that are not one identifier *)


